(** * pubmed_fetcher: a shallow embedding of [pubmed_fetcher/fetch.py]

    The development follows the layout of the Python module:

    - [Text]: Python [str] values and the string methods the module calls
      ([lower], [in], [strip], [join], [split]);
    - [Regex]: the backtracking search behind [re.search] for the one
      pattern the module uses;
    - [Fetch]: [is_company_affiliation], [extract_authors_info],
      [parse_pubmed_xml] and [fetch_and_process_papers].

    Text is a list of characters with code points below 256, the first
    256 code points of a Python [str]; case mapping and white space are
    those of Python on these code points.  A Python exception is a value
    of [exn] returned in the [Raise] branch of [result]. *)

From Stdlib Require Import Ascii String.
From stdpp Require Import base option list sets gmap strings.

Local Open Scope list_scope.
Set Warnings "-register-all,-clear-no-such-hyp".

(** ** Python values and exceptions *)

Abbreviation text := (list ascii).

(** A string literal of the source, as [text]. *)
Definition str (s : string) : text := list_ascii_of_string s.

Inductive exn : Type :=
  | AttributeError   (* 'NoneType' object has no attribute ... *)
  | TypeError        (* expected string or bytes-like object *)
  | ParseError       (* ElementTree.fromstring on unparsable markup *)
  | RequestError     (* requests.get / raise_for_status / response.json() *)
  | SubscriptError   (* response.json()["esearchresult"]["idlist"] *)
  | SinkError.       (* open, the CSV writer, print(paper) *)

Inductive result (A : Type) : Type :=
  | Ok (a : A)
  | Raise (e : exn).
Arguments Ok {A} a.
Arguments Raise {A} e.

#[global] Instance result_ret : MRet result := λ A a, Ok a.
#[global] Instance result_bind : MBind result := λ A B f m,
  match m with
  | Ok a => f a
  | Raise e => Raise e
  end.

#[global] Instance exn_eq_dec : EqDecision exn.
Proof. solve_decision. Defined.

(** The values the module stores under a string-valued dictionary key:
    [None] or a [str]. *)
Inductive pyval : Type :=
  | PyNone
  | PyStr (s : text).

#[global] Instance pyval_eq_dec : EqDecision pyval.
Proof. solve_decision. Defined.

(** [d.get(key, default)]: the field of a dictionary is [None] (in Rocq)
    when the key is missing, and only then the default is used.  A key
    that is present with the Python value [None] yields [PyNone]. *)
Definition dict_get {A : Type} (field : option A) (default : A) : A :=
  match field with
  | Some v => v
  | None => default
  end.

(** [f"{v}"]: formatting inside an f-string. *)
Definition format (v : pyval) : text :=
  match v with
  | PyNone => str "None"
  | PyStr s => s
  end.

(** ** Text *)

Module Text.

(** The upper-case letters below 256: A to Z, and the letters of
    U+00C0 to U+00DE without the multiplication sign U+00D7.  Each has
    its lower-case form 32 places further. *)
Definition is_upper (c : ascii) : bool :=
  let n := nat_of_ascii c in
  ((65 <=? n) && (n <=? 90))
  || ((192 <=? n) && (n <=? 214))
  || ((216 <=? n) && (n <=? 222)).

Definition lower_char (c : ascii) : ascii :=
  if is_upper c then ascii_of_nat (nat_of_ascii c + 32) else c.

(** [s.lower()] *)
Definition lower (s : text) : text := map lower_char s.

(** [s.startswith(p)] *)
Fixpoint startswith (p s : text) : bool :=
  match p, s with
  | [], _ => true
  | _ :: _, [] => false
  | a :: p', b :: s' => bool_decide (a = b) && startswith p' s'
  end.

(** [p in s]: [p] occurs in [s] as a contiguous substring. *)
Fixpoint contains (p s : text) : bool :=
  startswith p s ||
  match s with
  | [] => false
  | _ :: s' => contains p s'
  end.

(** The relation [contains] decides. *)
Definition substring (p s : text) : Prop := ∃ u v, s = u ++ p ++ v.

(** [str.isspace] on one character below 256: HT, LF, VT, FF, CR, the
    four separators FS, GS, RS, US, the space, the next-line control
    U+0085 and the no-break space U+00A0. *)
Definition is_space (c : ascii) : bool :=
  let n := nat_of_ascii c in
  ((9 <=? n) && (n <=? 13)) || ((28 <=? n) && (n <=? 32))
  || (n =? 133) || (n =? 160).

(** [s.lstrip(chars)], [s.rstrip(chars)] and [s.strip(chars)], with the
    set of characters given as a predicate. *)
Fixpoint lstrip_of (p : ascii → bool) (s : text) : text :=
  match s with
  | [] => []
  | c :: s' => if p c then lstrip_of p s' else s
  end.

Definition rstrip_of (p : ascii → bool) (s : text) : text :=
  reverse (lstrip_of p (reverse s)).

Definition strip_of (p : ascii → bool) (s : text) : text :=
  rstrip_of p (lstrip_of p s).

(** [s.strip()] *)
Definition strip (s : text) : text := strip_of is_space s.

(** [s.strip("-")] *)
Definition is_dash (c : ascii) : bool := bool_decide (c = "-"%char).
Definition strip_dash (s : text) : text := strip_of is_dash s.

(** [sep.join(l)] *)
Fixpoint join (sep : text) (l : list text) : text :=
  match l with
  | [] => []
  | [x] => x
  | x :: l' => x ++ sep ++ join sep l'
  end.

(** [s.split(c)] for a one-character separator [c]: never empty, one
    more piece than there are occurrences of [c]. *)
Fixpoint split (c : ascii) (s : text) : list text :=
  match s with
  | [] => [[]]
  | a :: s' =>
      if bool_decide (a = c) then [] :: split c s'
      else match split c s' with
           | [] => [[a]]
           | w :: ws => (a :: w) :: ws
           end
  end.

End Text.

(** ** Regular expressions: [re.search] *)

Module Regex.

(** The pattern of the module only repeats character classes, so a
    pattern is a sequence of atoms: a literal character, or a greedy
    repetition [cls{min,}] of a class. *)
Inductive atom : Type :=
  | Chr (c : ascii)
  | Rep (cls : ascii → bool) (min : nat).

Definition regex : Type := list atom.

(** The strings a pattern matches as a whole. *)
Fixpoint lang (re : regex) (w : text) : Prop :=
  match re with
  | [] => w = []
  | Chr c :: re' => ∃ w', w = c :: w' ∧ lang re' w'
  | Rep cls min :: re' =>
      ∃ u v, w = u ++ v ∧ forallb cls u = true ∧ min ≤ length u ∧ lang re' v
  end.

(** Length of the longest prefix of [s] inside the class. *)
Fixpoint run_length (cls : ascii → bool) (s : text) : nat :=
  match s with
  | [] => 0
  | c :: s' => if cls c then S (run_length cls s') else 0
  end.

(** The greedy loop of a repetition: the rest of the pattern is tried
    after [n], [n - 1], ..., [min] characters, the first success wins. *)
Fixpoint greedy (rest : nat → option nat) (min n : nat) : option nat :=
  if n <? min then None
  else match rest n with
       | Some m => Some m
       | None => match n with
                 | 0 => None
                 | S n' => greedy rest min n'
                 end
       end.

(** The backtracking matcher anchored at the start of [s]: the length of
    the match it settles on, if any. *)
Fixpoint match_here (re : regex) (s : text) : option nat :=
  match re with
  | [] => Some 0
  | Chr c :: re' =>
      match s with
      | [] => None
      | a :: s' => if bool_decide (a = c) then S <$> match_here re' s' else None
      end
  | Rep cls min :: re' =>
      greedy (λ k, (λ m, k + m) <$> match_here re' (drop k s)) min
             (run_length cls s)
  end.

(** [re.search(re, s)] followed by [.group(0)]: the match at the first
    start position that has one. *)
Fixpoint search (re : regex) (s : text) : option text :=
  match match_here re s with
  | Some n => Some (take n s)
  | None => match s with
            | [] => None
            | _ :: s' => search re s'
            end
  end.

Definition in_range (lo hi : nat) (c : ascii) : bool :=
  (lo <=? nat_of_ascii c) && (nat_of_ascii c <=? hi).

(** [[A-Za-z]] *)
Definition alpha (c : ascii) : bool := in_range 65 90 c || in_range 97 122 c.

(** [[0-9]] *)
Definition digit (c : ascii) : bool := in_range 48 57 c.

Definition one_of (chars : string) (c : ascii) : bool :=
  bool_decide (c ∈ str chars).

(** [[A-Za-z0-9._%+-]] *)
Definition local_char (c : ascii) : bool := alpha c || digit c || one_of "._%+-" c.

(** [[A-Za-z0-9.-]] *)
Definition domain_char (c : ascii) : bool := alpha c || digit c || one_of ".-" c.

(** [r"[A-Za-z0-9._%+-]+@[A-Za-z0-9.-]+\.[A-Za-z]{2,}"] *)
Definition EMAIL : regex :=
  [Rep local_char 1; Chr "@"; Rep domain_char 1; Chr "."; Rep alpha 2].

(** An email-shaped string: one the pattern matches as a whole. *)
Definition email_shaped (w : text) : Prop := lang EMAIL w.

(** [w] is the first match of [re] in [s]: no match of the pattern
    starts further left, and no match that starts at the same place is
    longer. *)
Definition first_match (re : regex) (s w : text) : Prop :=
  ∃ pre post, s = pre ++ w ++ post ∧ lang re w ∧
    ∀ pre' w' post', s = pre' ++ w' ++ post' → lang re w' →
      length pre ≤ length pre' ∧
      (length pre' = length pre → length w' ≤ length w).

(** A pattern whose backtracking match is as long as any match at the
    same place. *)
Definition longest (re : regex) : Prop :=
  ∀ s n w rest, match_here re s = Some n → s = w ++ rest → lang re w →
    length w ≤ n.

Definition has_match (re : regex) (s : text) : Prop :=
  ∃ w, Text.substring w s ∧ lang re w.

End Regex.

(** ** The parsed citation document: [xml.etree.ElementTree.Element] *)

Module ElementTree.

Inductive Element : Type :=
  | Elem (tag : text) (content : option text) (children : list Element).

Definition tag (e : Element) : text := let 'Elem t _ _ := e in t.
Definition content (e : Element) : option text := let 'Elem _ c _ := e in c.
Definition children (e : Element) : list Element := let 'Elem _ _ cs := e in cs.

(** [e.iter()]: the element and everything below it, in document order. *)
Fixpoint iter (e : Element) : list Element :=
  match e with
  | Elem _ _ cs =>
      e :: (fix iter_all (l : list Element) : list Element :=
              match l with
              | [] => []
              | c :: l' => iter c ++ iter_all l'
              end) cs
  end.

Definition has_tag (t : text) (e : Element) : bool := bool_decide (tag e = t).

(** [e.findall(".//t")]: the elements tagged [t] strictly below [e]. *)
Definition findall_below (t : text) (e : Element) : list Element :=
  filter (λ x, has_tag t x = true) (flat_map iter (children e)).

(** [e.findall("t")]: the children of [e] tagged [t]. *)
Definition findall (t : text) (e : Element) : list Element :=
  filter (λ x, has_tag t x = true) (children e).

(** [findtext] on the first match: the default [None] when there is no
    match, the empty string when the match has no text. *)
Definition text_of (found : option Element) : pyval :=
  match found with
  | None => PyNone
  | Some x => PyStr (default [] (content x))
  end.

(** [e.find(".//t")] *)
Definition find_below (t : text) (e : Element) : option Element :=
  head (findall_below t e).

(** [e.findtext(".//t")] *)
Definition findtext_below (t : text) (e : Element) : pyval :=
  text_of (find_below t e).

(** [e.findtext("t")] *)
Definition findtext (t : text) (e : Element) : pyval :=
  text_of (head (findall t e)).

End ElementTree.

(** ** [pubmed_fetcher/fetch.py] *)

Module Fetch.
Import Text Regex ElementTree.

Definition COMPANY_KEYWORDS : list text :=
  str <$> ["pharma"; "biotech"; "therapeutics"; "inc"; "ltd"; "llc"; "gmbh";
           "laboratories"; "solutions"]%string.

Definition ACADEMIC_KEYWORDS : list text :=
  str <$> ["university"; "institute"; "college"; "hospital"; "school";
           "department"; "center"; "centre"; "academy"]%string.

(** [any(word in affiliation for word in keywords)] *)
Definition any_in (keywords : list text) (affiliation : text) : bool :=
  existsb (λ word, contains word affiliation) keywords.

(** [affiliation.lower()] on a value that may be [None]. *)
Definition py_lower (v : pyval) : result text :=
  match v with
  | PyNone => Raise AttributeError
  | PyStr s => Ok (lower s)
  end.

Definition is_company_affiliation (affiliation : pyval) : result bool :=
  affiliation ← py_lower affiliation;
  mret (any_in COMPANY_KEYWORDS affiliation
        && negb (any_in ACADEMIC_KEYWORDS affiliation)).

(** [re.search(EMAIL, aff_text)], then [.group(0)] of a match. *)
Definition re_search (v : pyval) : result (option text) :=
  match v with
  | PyNone => Raise TypeError
  | PyStr s => Ok (search EMAIL s)
  end.

(** Truth value of [corresponding_email]: [None] and [""] are false. *)
Definition truthy (v : option text) : bool :=
  match v with
  | None | Some [] => false
  | Some (_ :: _) => true
  end.

(** The dictionaries of the author list.  A field is [None] when the key
    is missing from the dictionary. *)
Record aff_dict : Type := { Affiliation : option pyval }.

Record author_dict : Type := {
  LastName : option pyval;
  ForeName : option pyval;
  AffiliationInfo : option (list aff_dict)
}.

#[global] Instance pyval_countable : Countable pyval :=
  inj_countable'
    (λ v, match v with PyNone => None | PyStr s => Some s end)
    (λ o, match o with None => PyNone | Some s => PyStr s end)
    (λ v, match v with PyNone => eq_refl | PyStr _ => eq_refl end).

(** The three accumulators of [extract_authors_info]. *)
Record accum : Type := {
  non_academic_authors : list text;
  company_affiliations : gset pyval;
  corresponding_email : option text
}.

Definition accum_init : accum :=
  {| non_academic_authors := [];
     company_affiliations := ∅;
     corresponding_email := None |}.

(** [f"{author.get('LastName', '')} {author.get('ForeName', '')}".strip()] *)
Definition display_name (author : author_dict) : text :=
  strip (format (dict_get (LastName author) (PyStr []))
         ++ str " "
         ++ format (dict_get (ForeName author) (PyStr []))).

(** [aff.get('Affiliation', '')] *)
Definition aff_text_of (aff : aff_dict) : pyval :=
  dict_get (Affiliation aff) (PyStr []).

(** The body of the inner loop, for one affiliation of an author. *)
Definition scan_affiliation (name : text) (acc : accum) (aff : aff_dict)
  : result accum :=
  let aff_text := aff_text_of aff in
  company ← is_company_affiliation aff_text;
  let acc :=
    if company : bool then
      {| non_academic_authors := non_academic_authors acc ++ [name];
         company_affiliations := company_affiliations acc ∪ {[aff_text]};
         corresponding_email := corresponding_email acc |}
    else acc in
  if negb (truthy (corresponding_email acc)) then
    email_match ← re_search aff_text;
    match email_match with
    | Some group0 =>
        mret {| non_academic_authors := non_academic_authors acc;
                company_affiliations := company_affiliations acc;
                corresponding_email := Some group0 |}
    | None => mret acc
    end
  else mret acc.

(** A [for] loop whose body may raise. *)
Fixpoint for_each {A S : Type} (body : S → A → result S) (s : S) (l : list A)
  : result S :=
  match l with
  | [] => Ok s
  | x :: l' => s' ← body s x; for_each body s' l'
  end.

(** The body of the outer loop, for one author. *)
Definition scan_author (acc : accum) (author : author_dict) : result accum :=
  let name := display_name author in
  let affiliations := dict_get (AffiliationInfo author) [] in
  for_each (scan_affiliation name) acc affiliations.

(** The six-column record of a paper. *)
Record paper : Type := {
  PubmedID : pyval;
  Title : pyval;
  Publication_Date : text;
  Non_academicAuthors : text;
  CompanyAffiliations : text;
  Corresponding_Author_Email : text
}.

(** [v or ""] *)
Definition or_empty (v : pyval) : text :=
  match v with
  | PyNone => []
  | PyStr s => s
  end.

(** [f"{year}-{month}-{day}".strip("-")] *)
Definition format_date (year month day : text) : text :=
  strip_dash (year ++ str "-" ++ month ++ str "-" ++ day).

(** The publication date of an article. *)
Definition pub_date_of (article : Element) : text :=
  match find_below (str "PubDate") article with
  | None => []
  | Some pub_date_el =>
      let year := or_empty (findtext (str "Year") pub_date_el) in
      let month := or_empty (findtext (str "Month") pub_date_el) in
      let day := or_empty (findtext (str "Day") pub_date_el) in
      format_date year month day
  end.

(** The dictionary built for one [Author] element: every key is set, to
    what [findtext] returns. *)
Definition author_data_of (author : Element) : author_dict :=
  {| LastName := Some (findtext (str "LastName") author);
     ForeName := Some (findtext (str "ForeName") author);
     AffiliationInfo :=
       Some ((λ aff, {| Affiliation := Some (findtext (str "Affiliation") aff) |})
             <$> findall (str "AffiliationInfo") author) |}.

Definition authors_of (article : Element) : list author_dict :=
  author_data_of <$> findall_below (str "Author") article.

(** ["; ".join(l)] on a list of values: [str.join] refuses [None]. *)
Fixpoint as_texts (l : list pyval) : result (list text) :=
  match l with
  | [] => Ok []
  | PyNone :: _ => Raise TypeError
  | PyStr s :: l' => ss ← as_texts l'; mret (s :: ss)
  end.

Definition py_join (sep : text) (l : list pyval) : result text :=
  texts ← as_texts l; mret (join sep texts).

(** [email or "N/A"] *)
Definition or_na (email : option text) : text :=
  if truthy email then default [] email else str "N/A".

Section Extractor.

(** [list(company_affiliations)]: the order in which a Python set yields
    its elements is that of its hash table; it is a parameter here. *)
Variable set_iter : gset pyval → list pyval.

Definition extract_authors_info (authors : list author_dict)
  : result (list text * list pyval * option text) :=
  acc ← for_each scan_author accum_init authors;
  mret (non_academic_authors acc,
        set_iter (company_affiliations acc),
        corresponding_email acc).

(** The body of the loop of [parse_pubmed_xml], for one article: the
    record appended to [results], if any. *)
Definition parse_article (article : Element) : result (option paper) :=
  let pmid := findtext_below (str "PMID") article in
  let title := findtext_below (str "ArticleTitle") article in
  let pub_date := pub_date_of article in
  let authors := authors_of article in
  '(non_acad_authors, company_affs, email) ← extract_authors_info authors;
  match non_acad_authors with
  | [] => mret None
  | _ :: _ =>
      affs ← py_join (str "; ") company_affs;
      mret (Some {| PubmedID := pmid;
                    Title := title;
                    Publication_Date := pub_date;
                    Non_academicAuthors := join (str "; ") non_acad_authors;
                    CompanyAffiliations := affs;
                    Corresponding_Author_Email := or_na email |})
  end.

Definition append_result (results : list paper) (article : Element)
  : result (list paper) :=
  r ← parse_article article;
  mret (results ++ option_list r).

(** [parse_pubmed_xml] after [ElementTree.fromstring]. *)
Definition parse_root (root : Element) : result (list paper) :=
  for_each append_result [] (findall_below (str "PubmedArticle") root).

End Extractor.

(** *** The pipeline and its collaborators *)

(** What the run does to the outside world, in order. *)
Inductive event : Type :=
  | Request (url : text) (params : list (text * text))  (* requests.get *)
  | Printed (line : text)                                 (* print(line) *)
  | PrintedDebug (label : text)                           (* print(label, ...) *)
  | PrintedPaper (p : paper)                              (* print(paper) *)
  | PrintedError (e : exn)                                (* print("Error:", str(e)) *)
  | CsvWritten (file : text) (fieldnames : list text) (rows : list paper)
  | Opened (file : text).                                 (* open(file, "w") *)

(** A computation that appends to the trace of events and may raise. *)
Definition io (A : Type) : Type := list event → list event * result A.

#[global] Instance io_ret : MRet io := λ A a tr, (tr, Ok a).
#[global] Instance io_bind : MBind io := λ A B f m tr,
  match m tr with
  | (tr', Ok a) => f a tr'
  | (tr', Raise e) => (tr', Raise e)
  end.

Definition emit (ev : event) : io unit := λ tr, (tr ++ [ev], Ok ()).

Definition lift {A : Type} (r : result A) : io A := λ tr, (tr, r).

Definition when (b : bool) (m : io unit) : io unit := if b then m else mret ().

(** [try: body except Exception as e: handler(e)] *)
Definition try_except (body : io unit) (handler : exn → io unit) : io unit :=
  λ tr, match body tr with
        | (tr', Ok u) => (tr', Ok u)
        | (tr', Raise e) => handler e tr'
        end.

Fixpoint io_for_each {A : Type} (body : A → io unit) (l : list A) : io unit :=
  match l with
  | [] => mret ()
  | x :: l' => body x ≫= λ _, io_for_each body l'
  end.

Definition ESEARCH : text :=
  str "https://eutils.ncbi.nlm.nih.gov/entrez/eutils/esearch.fcgi".
Definition EFETCH : text :=
  str "https://eutils.ncbi.nlm.nih.gov/entrez/eutils/efetch.fcgi".

Definition FIELDNAMES : list text :=
  str <$> ["PubmedID"; "Title"; "Publication Date"; "Non-academicAuthor(s)";
           "CompanyAffiliation(s)"; "Corresponding Author Email"]%string.

(** The sink, as the run meets it: opening the file for writing,
    writing the header and the rows into it, and printing one record.
    Each of the three may raise.  The lines the module prints itself are
    taken to be printable. *)
Record sink : Type := {
  open_file : text → result unit;
  write_rows : text → list paper → result unit;
  print_paper : paper → result unit
}.

Section Pipeline.

Variable set_iter : gset pyval → list pyval.

(** The collaborators.  The search service answers a query with
    [response.json()["esearchresult"]["idlist"]] or fails: with
    [SubscriptError] when the answer arrived and decoded but has no id
    list, which shows at the last line of [fetch_pubmed_ids], behind the
    debug line; with another exception when the request, its status or
    the decoding fails, which shows before the debug line.  The fetch
    service answers an id list with [response.text] or fails at the
    request.  [fromstring] is [ElementTree.fromstring]. *)
Variable esearch : text → result (list text).
Variable efetch : list text → result text.
Variable fromstring : text → result Element.
Variable out : sink.

Definition fetch_pubmed_ids (query : text) (debug : bool) : io (list text) :=
  let url := ESEARCH in
  let params := [(str "db", str "pubmed"); (str "term", query);
                 (str "retmax", str "100"); (str "retmode", str "json")] in
  emit (Request url params) ≫= λ _,
  match esearch query with
  | Raise SubscriptError =>
      when debug (emit (PrintedDebug (str "PubMed ID Fetch Response:"))) ≫= λ _,
      lift (Raise SubscriptError)
  | response =>
      idlist ← lift response;
      when debug (emit (PrintedDebug (str "PubMed ID Fetch Response:"))) ≫= λ _,
      mret idlist
  end.

Definition parse_pubmed_xml (xml_str : text) : result (list paper) :=
  root ← fromstring xml_str;
  parse_root set_iter root.

Definition fetch_pubmed_details (pubmed_ids : list text) (debug : bool)
  : io (list paper) :=
  let url := EFETCH in
  let params := [(str "db", str "pubmed"); (str "id", join (str ",") pubmed_ids);
                 (str "retmode", str "xml")] in
  emit (Request url params) ≫= λ _,
  xml ← lift (efetch pubmed_ids);
  when debug (emit (Printed (str "Raw XML fetched"))) ≫= λ _,
  lift (parse_pubmed_xml xml).

Definition fetch_and_process_papers
  (query : text) (output_file : option text) (debug : bool) : io unit :=
  try_except
    (pubmed_ids ← fetch_pubmed_ids query debug;
     match pubmed_ids with
     | [] => emit (Printed (str "No papers found."))
     | _ :: _ =>
         papers ← fetch_pubmed_details pubmed_ids debug;
         if truthy output_file then
           let file := default [] output_file in
           lift (open_file out file) ≫= λ _,
           emit (Opened file) ≫= λ _,
           lift (write_rows out file papers) ≫= λ _,
           emit (CsvWritten file FIELDNAMES papers) ≫= λ _,
           emit (Printed (str "Results saved to " ++ file))
         else io_for_each (λ paper,
                lift (print_paper out paper) ≫= λ _,
                emit (PrintedPaper paper)) papers
     end)
    (λ e, emit (PrintedError e)).

End Pipeline.

End Fetch.

(** ** Vocabulary of the properties *)

Module Spec.
Import Text Regex ElementTree Fetch.

(** The lower-cased text contains a keyword of the vocabulary. *)
Definition mentions (keywords : list text) (s : text) : Prop :=
  ∃ word, word ∈ keywords ∧ substring word (lower s).

(** The list the inner loop of [extract_authors_info] runs over. *)
Definition affiliations_of (author : author_dict) : list aff_dict :=
  dict_get (AffiliationInfo author) [].

(** Every affiliation of every author, in document order, each with the
    display name of its author. *)
Definition named_affiliations (authors : list author_dict)
  : list (text * pyval) :=
  author ← authors;
  (λ aff, (display_name author, aff_text_of aff)) <$> affiliations_of author.

(** The affiliation texts of a paper, in document order. *)
Definition aff_texts (authors : list author_dict) : list pyval :=
  snd <$> named_affiliations authors.

(** The affiliation is classified as a company. *)
Definition qualifies (v : pyval) : bool :=
  match is_company_affiliation v with
  | Ok true => true
  | _ => false
  end.

(** The company-classified affiliation texts, one entry per occurrence. *)
Definition qualifying_texts (authors : list author_dict) : list pyval :=
  filter (λ v, qualifies v = true) (aff_texts authors).

(** The display names of the authors, one entry per company-classified
    affiliation. *)
Definition qualifying_names (authors : list author_dict) : list text :=
  fst <$> filter (λ p, qualifies p.2 = true) (named_affiliations authors).

(** The distinct elements of a list in the order of their first
    occurrence. *)
Fixpoint first_seen (l : list pyval) : list pyval :=
  match l with
  | [] => []
  | x :: l' => x :: filter (λ y, y ≠ x) (first_seen l')
  end.

(** The first email-shaped substring met when the texts are read in
    order: the first match in the first text that has one. *)
Fixpoint first_email (texts : list text) : option text :=
  match texts with
  | [] => None
  | t :: texts' =>
      match search EMAIL t with
      | Some e => Some e
      | None => first_email texts'
      end
  end.

(** The pieces of a ["; "]-joined string after [split(";")], with the
    blank the joiner leaves in front of every piece but the first
    removed again. *)
Definition unpad (pieces : list text) : list text :=
  match pieces with
  | [] => []
  | p :: ps => p :: (drop 1 <$> ps)
  end.

(** One pass of the inner loop on an affiliation text that is a string. *)
Definition scan_text (acc : accum) (p : text * text) : accum :=
  let company := qualifies (PyStr p.2) in
  {| non_academic_authors :=
       non_academic_authors acc ++ (if company then [p.1] else []);
     company_affiliations :=
       company_affiliations acc ∪ (if company then {[PyStr p.2]} else ∅);
     corresponding_email :=
       if truthy (corresponding_email acc) then corresponding_email acc
       else match search EMAIL p.2 with
            | Some e => Some e
            | None => corresponding_email acc
            end |}.

(** The inner loop only looks at the text of an affiliation. *)
Definition scan_value (name : text) (acc : accum) (v : pyval) : result accum :=
  scan_affiliation name acc {| Affiliation := Some v |}.

(** Tagging the texts of a list of named strings as Python values. *)
Definition as_values (ps : list (text * text)) : list (text * pyval) :=
  (λ p, (p.1, PyStr p.2)) <$> ps.

(** The text carried by each value of a list, [None] left out. *)
Definition strings (l : list pyval) : list text :=
  omap (λ v, match v with PyStr s => Some s | PyNone => None end) l.

(** The order of a set reversed lists the same elements. *)
Definition reverse_elements (X : gset pyval) : list pyval := reverse (elements X).

(** The components that are there: an absent element and an element
    without text both give the empty string. *)
Definition present (parts : list text) : list text :=
  filter (λ s, s ≠ []) parts.

(** The record of an article with a non-empty list of names. *)
Definition record_of (article : Element) (names texts : list text)
  (email : option text) : paper :=
  {| PubmedID := findtext_below (str "PMID") article;
     Title := findtext_below (str "ArticleTitle") article;
     Publication_Date := pub_date_of article;
     Non_academicAuthors := join (str "; ") names;
     CompanyAffiliations := join (str "; ") texts;
     Corresponding_Author_Email := or_na email |}.

(** A text that begins, or ends, with a character [strip()] keeps. *)
Definition starts_clean (s : text) : Prop :=
  ∃ c s', s = c :: s' ∧ is_space c = false.
Definition ends_clean (s : text) : Prop :=
  ∃ s' c, s = s' ++ [c] ∧ is_space c = false.

(** The request sent to the search service. *)
Definition search_request (query : text) : event :=
  Request ESEARCH [(str "db", str "pubmed"); (str "term", query);
                   (str "retmax", str "100"); (str "retmode", str "json")].

(** Events that retrieve the citation document, hand a record to a sink,
    or report an error. *)
Definition is_retrieval (ev : event) : bool :=
  match ev with
  | Request url _ => bool_decide (url = EFETCH)
  | _ => false
  end.

Definition is_record_output (ev : event) : bool :=
  match ev with
  | PrintedPaper _ | CsvWritten _ _ _ => true
  | _ => false
  end.

Definition is_error (ev : event) : bool :=
  match ev with
  | PrintedError _ => true
  | _ => false
  end.

End Spec.

(** ** Example papers and documents *)

Module Examples.
Import Text Regex ElementTree Fetch Spec.

(** Scenario 3 of the specification with an address added to the company
    affiliation, and a second company author sharing that affiliation. *)
Definition authors_example : list author_dict :=
  [ {| LastName := Some (PyStr (str "Roe")); ForeName := Some (PyStr (str "Ann"));
       AffiliationInfo :=
         Some [ {| Affiliation := Some (PyStr (str "University Hospital")) |} ] |};
    {| LastName := Some (PyStr (str "Doe")); ForeName := Some (PyStr (str "John"));
       AffiliationInfo :=
         Some [ {| Affiliation := Some (PyStr (str "Acme Biotech Ltd, j@acme.com")) |};
                {| Affiliation := Some (PyStr (str "XYZ Pharma Inc")) |} ] |};
    {| LastName := Some (PyStr (str "Poe")); ForeName := Some (PyStr (str "Eve"));
       AffiliationInfo :=
         Some [ {| Affiliation := Some (PyStr (str "Acme Biotech Ltd, j@acme.com")) |} ] |} ].

(** Building example documents. *)
Definition node (t : string) (cs : list Element) : Element := Elem (str t) None cs.
Definition leaf (t s : string) : Element := Elem (str t) (Some (str s)) [].

Definition article_year_month : Element :=
  node "PubmedArticle"
    [ leaf "PMID" "1";
      node "Journal" [ node "PubDate" [ leaf "Year" "2020"; leaf "Month" "Jan" ] ] ].

Definition article_year_only : Element :=
  node "PubmedArticle"
    [ leaf "PMID" "2"; node "PubDate" [ leaf "Year" "2020" ] ].

Definition article_year_day : Element :=
  node "PubmedArticle"
    [ leaf "PMID" "3";
      node "Journal" [ node "PubDate" [ leaf "Year" "2020"; leaf "Day" "15" ] ] ].

Definition author_node (last_name fore_name : string) (affiliations : list string)
  : Element :=
  node "Author"
    ([ leaf "LastName" last_name; leaf "ForeName" fore_name ]
     ++ ((λ a, node "AffiliationInfo" [ leaf "Affiliation" a ]) <$> affiliations)).

(** Two articles: the first has two company authors, the only author of
    the second is academic. *)
Definition document_example : Element :=
  node "PubmedArticleSet"
    [ node "PubmedArticle"
        [ leaf "PMID" "11"; leaf "ArticleTitle" "On things";
          node "PubDate" [ leaf "Year" "2020"; leaf "Month" "Jan" ];
          node "AuthorList"
            [ author_node "Doe" "John" ["Acme Biotech Ltd, j@acme.com"];
              author_node "Poe" "Eve" ["XYZ Pharma Inc"; "State University"] ] ];
      node "PubmedArticle"
        [ leaf "PMID" "12"; leaf "ArticleTitle" "On other things";
          node "AuthorList" [ author_node "Roe" "Ann" ["University Hospital"] ] ] ].

Definition article_example : Element :=
  default document_example
    (head (findall_below (str "PubmedArticle") document_example)).

Definition record_example : paper :=
  record_of article_example
    [str "Doe John"; str "Poe Eve"]
    [str "Acme Biotech Ltd, j@acme.com"; str "XYZ Pharma Inc"]
    (Some (str "j@acme.com")).

(** An author whose [AffiliationInfo] element has no [Affiliation]
    child. *)
Definition document_missing_affiliation : Element :=
  node "PubmedArticleSet"
    [ node "PubmedArticle"
        [ leaf "PMID" "21"; leaf "ArticleTitle" "On nothing";
          node "AuthorList"
            [ node "Author"
                [ leaf "LastName" "Doe"; leaf "ForeName" "John";
                  node "AffiliationInfo" [] ] ] ] ].

(** An author without a [ForeName] element, at a company. *)
Definition author_without_forename : Element :=
  node "Author"
    [ leaf "LastName" "Smith";
      node "AffiliationInfo" [ leaf "Affiliation" "Acme Biotech Ltd" ] ].

(** A sink on which nothing fails, and one on which everything does. *)
Definition sink_ok : sink :=
  {| open_file := λ _, Ok ();
     write_rows := λ _ _, Ok ();
     print_paper := λ _, Ok () |}.

Definition sink_failing : sink :=
  {| open_file := λ _, Raise SinkError;
     write_rows := λ _ _, Raise SinkError;
     print_paper := λ _, Raise SinkError |}.

End Examples.

(** ** Vocabulary of the further properties *)

Module Notions.
Import Text Regex ElementTree Fetch Spec Examples.

(** The example paper with an author who has no affiliation put in
    front and another one, without the key, at the end. *)
Definition authors_example_padded : list author_dict :=
  {| LastName := Some (PyStr (str "Nemo")); ForeName := Some PyNone;
     AffiliationInfo := Some [] |}
  :: authors_example
  ++ [ {| LastName := None; ForeName := None; AffiliationInfo := None |} ].

(** The request sent to the fetch service. *)
Definition fetch_request (pubmed_ids : list text) : event :=
  Request EFETCH [(str "db", str "pubmed"); (str "id", join (str ",") pubmed_ids);
                  (str "retmode", str "xml")].

(** The two lines the debug flag adds. *)
Definition debug_ids (debug : bool) : list event :=
  if debug then [PrintedDebug (str "PubMed ID Fetch Response:")] else [].

Definition debug_xml (debug : bool) : list event :=
  if debug then [Printed (str "Raw XML fetched")] else [].


(** The two stages behind the search, as one computation. *)
Definition fetch_and_parse (set_iter : gset pyval → list pyval)
  (efetch : list text → result text) (fromstring : text → result Element)
  (pubmed_ids : list text) : result (list paper) :=
  xml ← efetch pubmed_ids; parse_pubmed_xml set_iter fromstring xml.

(** The number of company-classified affiliations of an author. *)
Definition company_count (author : author_dict) : nat :=
  length (filter (λ v, qualifies v = true)
            (aff_text_of <$> affiliations_of author)).

(** The other case of a letter A to Z or a to z; any other character is
    left as it is. *)
Definition swap_case (c : ascii) : ascii :=
  let n := nat_of_ascii c in
  if (65 <=? n) && (n <=? 90) then ascii_of_nat (n + 32)
  else if (97 <=? n) && (n <=? 122) then ascii_of_nat (n - 32)
  else c.

(** Two texts that differ at most in the case of letters A to Z. *)
Definition same_up_to_case (s s' : text) : Prop :=
  Forall2 (λ c c', c' = c ∨ c' = swap_case c) s s'.

(** The events of the search stage behind the request: the debug line,
    unless the search failed before it. *)
Definition search_events (outcome : result (list text)) (debug : bool)
  : list event :=
  match outcome with
  | Raise SubscriptError => debug_ids debug
  | Raise _ => []
  | Ok _ => debug_ids debug
  end.

(** The events of the console: the records printed before a print
    fails, with the outcome of the loop. *)
Fixpoint print_events (out : sink) (papers : list paper)
  : list event * result unit :=
  match papers with
  | [] => ([], Ok ())
  | paper :: papers' =>
      match print_paper out paper with
      | Raise e => ([], Raise e)
      | Ok _ =>
          (PrintedPaper paper :: (print_events out papers').1,
           (print_events out papers').2)
      end
  end.

(** The events of the file, with the outcome of the writing. *)
Definition file_events (out : sink) (file : text) (papers : list paper)
  : list event * result unit :=
  match open_file out file with
  | Raise e => ([], Raise e)
  | Ok _ =>
      match write_rows out file papers with
      | Raise e => ([Opened file], Raise e)
      | Ok _ =>
          ([Opened file; CsvWritten file FIELDNAMES papers;
            Printed (str "Results saved to " ++ file)], Ok ())
      end
  end.

(** What happens at the sink: the file when its name is a non-empty
    string, the console otherwise. *)
Definition sink_events (out : sink) (output_file : option text)
  (papers : list paper) : list event * result unit :=
  if truthy output_file then file_events out (default [] output_file) papers
  else print_events out papers.

(** The events of a stage, closed by the error line when it failed. *)
Definition with_error_line (stage : list event * result unit) : list event :=
  match stage.2 with
  | Ok _ => stage.1
  | Raise e => stage.1 ++ [PrintedError e]
  end.

(** The events of a run, stage by stage. *)
Definition run_events (set_iter : gset pyval → list pyval)
  (esearch : text → result (list text)) (efetch : list text → result text)
  (fromstring : text → result Element) (out : sink)
  (query : text) (output_file : option text) (debug : bool) : list event :=
  search_request query :: search_events (esearch query) debug ++
  match esearch query with
  | Raise e => [PrintedError e]
  | Ok [] => [Printed (str "No papers found.")]
  | Ok (id :: ids) =>
      fetch_request (id :: ids) ::
      match efetch (id :: ids) with
      | Raise e => [PrintedError e]
      | Ok xml =>
          debug_xml debug ++
          match parse_pubmed_xml set_iter fromstring xml with
          | Raise e => [PrintedError e]
          | Ok papers => with_error_line (sink_events out output_file papers)
          end
      end
  end.

(** Events at the sink: a record printed, the file opened or written. *)
Definition is_sink_event (ev : event) : bool :=
  match ev with
  | PrintedPaper _ | CsvWritten _ _ _ | Opened _ => true
  | _ => false
  end.

(** The events of a successful run before the sink. *)
Definition events_before_sink (query : text) (pubmed_ids : list text)
  (debug : bool) : list event :=
  search_request query :: debug_ids debug
  ++ fetch_request pubmed_ids :: debug_xml debug.


End Notions.

(** * Properties *)

Import Text Regex ElementTree Fetch Spec Examples.

(** ** Substrings *)

Lemma startswith_spec p s : startswith p s = true ↔ ∃ v, s = p ++ v.
Proof.
  revert s. induction p as [|a p IH]; intros s; simpl.
  - split; [eauto | done].
  - destruct s as [|b s].
    + split; [done | intros [v Hv]; done].
    + rewrite andb_true_iff, bool_decide_eq_true, IH. split.
      * intros [-> [v ->]]. eauto.
      * intros [v Hv]. simplify_eq/=. eauto.
Qed.

Lemma contains_spec p s : contains p s = true ↔ substring p s.
Proof.
  unfold substring. induction s as [|b s IH]; simpl.
  - rewrite orb_false_r, startswith_spec. split.
    + intros [v Hv]. exists [], v. done.
    + intros (u & v & Huv). destruct u; [|done]. eauto.
  - rewrite orb_true_iff, startswith_spec, IH. split.
    + intros [[v Hv]|(u & v & Huv)].
      * exists [], v. done.
      * exists (b :: u), v. by rewrite Huv.
    + intros (u & v & Huv). destruct u as [|c u]; simplify_eq/=.
      * left. eauto.
      * right. eauto.
Qed.

(** ** The affiliation classifier *)

Lemma any_in_lower keywords s :
  any_in keywords (lower s) = true ↔ mentions keywords s.
Proof.
  unfold any_in, mentions. rewrite existsb_exists.
  split; intros (w & Hw & Hs); exists w.
  - by rewrite list_elem_of_In, <- contains_spec.
  - by rewrite <- list_elem_of_In, contains_spec.
Qed.

Lemma is_company_affiliation_str s :
  is_company_affiliation (PyStr s) =
    Ok (any_in COMPANY_KEYWORDS (lower s)
        && negb (any_in ACADEMIC_KEYWORDS (lower s))).
Proof. reflexivity. Qed.

Lemma is_company_affiliation_true s :
  is_company_affiliation (PyStr s) = Ok true ↔
    mentions COMPANY_KEYWORDS s ∧ ¬ mentions ACADEMIC_KEYWORDS s.
Proof.
  rewrite is_company_affiliation_str, <- !any_in_lower.
  destruct (any_in COMPANY_KEYWORDS _), (any_in ACADEMIC_KEYWORDS _);
    simpl; naive_solver.
Qed.

Lemma is_company_affiliation_total s :
  ∃ b, is_company_affiliation (PyStr s) = Ok b.
Proof. rewrite is_company_affiliation_str. eauto. Qed.

(** X17. On every affiliation string the classifier answers, and it
    answers true exactly when the lower-cased text contains a company
    keyword and no academic keyword.  Hence a text with a keyword of each
    vocabulary is classified false, a text without a company keyword is
    classified false whatever else it contains, the empty text is
    classified false, and so is the text [aff.get('Affiliation', '')]
    supplies for an affiliation dictionary without the key. *)
Theorem X17_classifier_iff :
  (∀ s, ∃ b, is_company_affiliation (PyStr s) = Ok b ∧
      (b = true ↔
         mentions COMPANY_KEYWORDS s ∧ ¬ mentions ACADEMIC_KEYWORDS s)) ∧
  (∀ s, mentions COMPANY_KEYWORDS s → mentions ACADEMIC_KEYWORDS s →
      is_company_affiliation (PyStr s) = Ok false) ∧
  (∀ s, ¬ mentions COMPANY_KEYWORDS s →
      is_company_affiliation (PyStr s) = Ok false) ∧
  is_company_affiliation (PyStr []) = Ok false ∧
  is_company_affiliation (aff_text_of {| Affiliation := None |}) = Ok false.
Proof.
  assert (Hfalse : ∀ s,
    ¬ (mentions COMPANY_KEYWORDS s ∧ ¬ mentions ACADEMIC_KEYWORDS s) →
    is_company_affiliation (PyStr s) = Ok false).
  { intros s Hn. destruct (is_company_affiliation_total s) as [[] Hb]; [|done].
    by apply is_company_affiliation_true in Hb. }
  split_and!.
  - intros s. destruct (is_company_affiliation_total s) as [b Hb].
    exists b. split; [done|]. rewrite <- is_company_affiliation_true, Hb.
    naive_solver.
  - intros s _ Ha. apply Hfalse. naive_solver.
  - intros s Hc. apply Hfalse. naive_solver.
  - reflexivity.
  - reflexivity.
Qed.

Lemma X17_classifier_iff_witness :
  is_company_affiliation (PyStr (str "Acme Pharma, University Hospital")) = Ok false.
Proof.
  apply (proj1 (proj2 X17_classifier_iff)).
  - exists (str "pharma"). split; [by apply (bool_decide_eq_true_1 _)|].
    by apply contains_spec.
  - exists (str "university"). split; [by apply (bool_decide_eq_true_1 _)|].
    by apply contains_spec.
Defined.

(** ** The backtracking matcher against the language of the pattern *)

Lemma run_length_le cls s : run_length cls s ≤ length s.
Proof. induction s as [|c s IH]; simpl; [lia|]. destruct (cls c); simpl; lia. Qed.

Lemma run_length_take cls s k :
  k ≤ run_length cls s → forallb cls (take k s) = true.
Proof.
  revert k. induction s as [|c s IH]; intros k Hk; simpl in *.
  - by destruct k.
  - destruct k as [|k]; [done|]. simpl. destruct (cls c) eqn:Hc; [|lia].
    simpl. apply IH. lia.
Qed.

Lemma run_length_prefix cls u v :
  forallb cls u = true → length u ≤ run_length cls (u ++ v).
Proof.
  induction u as [|c u IH]; simpl; [lia|].
  intros [Hc Hu]%andb_true_iff. rewrite Hc. specialize (IH Hu). lia.
Qed.

Lemma greedy_Some rest min n m :
  greedy rest min n = Some m →
  ∃ k, min ≤ k ≤ n ∧ rest k = Some m.
Proof.
  induction n as [|n IH]; simpl.
  - destruct min; simpl; [|done].
    destruct (rest 0) eqn:H0; [|done]. intros [= <-]. exists 0. split; [lia|done].
  - destruct (S n <? min) eqn:Hlt; [done|]. apply Nat.ltb_ge in Hlt.
    destruct (rest (S n)) eqn:HS.
    + intros [= <-]. exists (S n). split; [lia|done].
    + intros (k & Hk & Hr)%IH. exists k. split; [lia|done].
Qed.

Lemma greedy_None rest min n k :
  greedy rest min n = None → min ≤ k ≤ n → rest k = None.
Proof.
  induction n as [|n IH]; simpl.
  - intros Hg Hk. assert (k = 0) as -> by lia. assert (min = 0) as -> by lia.
    simpl in Hg. by destruct (rest 0).
  - destruct (S n <? min) eqn:Hlt.
    + apply Nat.ltb_lt in Hlt. lia.
    + destruct (rest (S n)) eqn:HS; [done|]. intros Hg Hk.
      destruct (decide (k = S n)) as [->|Hne]; [done|]. apply IH; [done|lia].
Qed.

Lemma match_here_sound re s n :
  match_here re s = Some n → n ≤ length s ∧ lang re (take n s).
Proof.
  revert s n. induction re as [|[c|cls min] re IH]; intros s n; simpl.
  - intros [= <-]. split; [lia|done].
  - destruct s as [|a s]; [done|]. case_bool_decide as Hac; [|done]. subst a.
    destruct (match_here re s) as [m|] eqn:Hm; [|done]. intros [= <-].
    destruct (IH _ _ Hm) as [Hle Hl]. simpl. split; [lia|]. eauto.
  - intros (k & Hk & Hrest)%greedy_Some.
    destruct (match_here re (drop k s)) as [m|] eqn:Hm; [|done].
    simpl in Hrest. injection Hrest as <-.
    destruct (IH _ _ Hm) as [Hle Hl]. rewrite length_drop in Hle.
    pose proof (run_length_le cls s). split; [lia|].
    exists (take k s), (take m (drop k s)). split_and!.
    + by rewrite take_take_drop.
    + apply run_length_take. lia.
    + rewrite length_take. lia.
    + done.
Qed.

Lemma match_here_complete re w rest :
  lang re w → is_Some (match_here re (w ++ rest)).
Proof.
  revert w. induction re as [|[c|cls min] re IH]; intros w; simpl.
  - eauto.
  - intros (w' & -> & Hl). simpl. rewrite bool_decide_eq_true_2 by done.
    destruct (IH _ Hl) as [m ->]. simpl. eauto.
  - intros (u & v & -> & Hu & Hmin & Hl).
    destruct (greedy _ min (run_length cls ((u ++ v) ++ rest))) eqn:Hg; [eauto|].
    apply greedy_None with (k := length u) in Hg.
    + rewrite <- (assoc_L (++)), drop_app_length in Hg.
      destruct (IH _ Hl) as [m Hm]. by rewrite Hm in Hg.
    + split; [done|]. rewrite <- (assoc_L (++)). by apply run_length_prefix.
Qed.

Lemma search_Some_lang re s w :
  search re s = Some w → ∃ pre post, s = pre ++ w ++ post ∧ lang re w.
Proof.
  induction s as [|a s IH]; simpl.
  - destruct (match_here re []) as [n|] eqn:Hn; [|done]. intros [= <-].
    apply match_here_sound in Hn as [_ Hl]. exists [], []. by destruct n.
  - destruct (match_here re (a :: s)) as [n|] eqn:Hn.
    + intros [= <-]. apply match_here_sound in Hn as [_ Hl].
      exists [], (drop n (a :: s)). simpl. by rewrite take_drop.
    + intros (pre & post & -> & Hl)%IH. by exists (a :: pre), post.
Qed.

Lemma search_None re s : search re s = None ↔ ¬ has_match re s.
Proof.
  unfold has_match, substring. induction s as [|a s IH]; simpl.
  - destruct (match_here re []) as [n|] eqn:Hn.
    + split; [done|]. intros []. apply match_here_sound in Hn as [_ Hl].
      exists (take n []). split; [|done]. exists [], []. by destruct n.
    + split; [|done]. intros _ (w & (u & v & Huv) & Hl).
      destruct u, w, v; try done.
      by destruct (match_here_complete re [] [] Hl) as [m Hm]; simplify_eq/=.
  - destruct (match_here re (a :: s)) as [n|] eqn:Hn.
    + split; [done|]. intros []. apply match_here_sound in Hn as [_ Hl].
      exists (take n (a :: s)). split; [|done].
      exists [], (drop n (a :: s)). simpl. by rewrite take_drop.
    + rewrite IH. split.
      * intros Hno (w & (u & v & Huv) & Hl). destruct u as [|b u].
        -- simpl in Huv. rewrite Huv in Hn.
           by destruct (match_here_complete re w v Hl) as [m Hm]; simplify_eq.
        -- simplify_eq/=. apply Hno. eauto 6.
      * intros Hno (w & (u & v & ->) & Hl). apply Hno.
        exists w. split; [|done]. by exists (a :: u), v.
Qed.

Lemma search_is_Some re s : is_Some (search re s) ↔ has_match re s.
Proof.
  split.
  - intros [w (pre & post & -> & Hl)%search_Some_lang].
    exists w. split; [|done]. by exists pre, post.
  - intros Hm. destruct (search re s) eqn:Hs; [eauto|].
    by apply search_None in Hs.
Qed.

(** ** The match the search settles on is the longest at its start *)

Lemma greedy_Some_max rest min n m :
  greedy rest min n = Some m →
  ∃ k, min ≤ k ≤ n ∧ rest k = Some m ∧ ∀ j, k < j ≤ n → rest j = None.
Proof.
  induction n as [|n IH]; simpl.
  - destruct min; simpl; [|done].
    destruct (rest 0) eqn:H0; [|done]. intros [= <-]. exists 0.
    split_and!; [lia..|done|lia].
  - destruct (S n <? min) eqn:Hlt; [done|]. apply Nat.ltb_ge in Hlt.
    destruct (rest (S n)) eqn:HS.
    + intros [= <-]. exists (S n). split_and!; [lia..|done|lia].
    + intros (k & Hk & Hr & Hmax)%IH. exists k. split_and!; [lia..|done|].
      intros j Hj. destruct (decide (j = S n)) as [->|Hne]; [done|].
      apply Hmax. lia.
Qed.

Lemma run_length_inside cls s k :
  k < run_length cls s → ∃ a x, drop k s = a :: x ∧ cls a = true.
Proof.
  revert k. induction s as [|c s IH]; intros k; simpl; [lia|].
  destruct (cls c) eqn:Hc; [|lia]. destruct k as [|k]; simpl.
  - eauto.
  - intros Hk. apply IH. lia.
Qed.

Lemma forallb_inside (cls : ascii → bool) t k x :
  forallb cls t = true → k < length t →
  ∃ a y, drop k (t ++ x) = a :: y ∧ cls a = true.
Proof.
  revert k. induction t as [|c t IH]; intros k; simpl; [lia|].
  intros [Hc Ht]%andb_true_iff Hk. destruct k as [|k]; simpl.
  - eauto.
  - apply IH; [done|lia].
Qed.

Lemma longest_chr c re : longest re → longest (Chr c :: re).
Proof.
  intros Hre s n w rest Hm -> (w' & -> & Hl). simpl in Hm.
  rewrite bool_decide_eq_true_2 in Hm by done.
  destruct (match_here re (w' ++ rest)) as [m|] eqn:Hm'; [|done].
  injection Hm as <-. specialize (Hre _ _ _ _ Hm' eq_refl Hl). simpl. lia.
Qed.

Lemma match_here_final_rep cls min s :
  match_here [Rep cls min] s =
    if run_length cls s <? min then None else Some (run_length cls s).
Proof.
  simpl. destruct (run_length cls s) as [|r]; simpl.
  - by destruct min.
  - destruct (S r <? min); [done|]. f_equal. lia.
Qed.

(** A repetition followed by a character outside its class takes the
    whole run. *)
Lemma longest_rep_chr cls min c re :
  cls c = false → longest (Chr c :: re) → longest (Rep cls min :: Chr c :: re).
Proof.
  intros Hc Hre s n w rest Hm -> (u & v & -> & Hu & Hmin & Hv).
  pose proof Hv as (w' & -> & Hw').
  change (match_here (Rep cls min :: Chr c :: re) ((u ++ c :: w') ++ rest))
    with (greedy (λ k, (λ m, k + m) <$>
            match_here (Chr c :: re) (drop k ((u ++ c :: w') ++ rest))) min
            (run_length cls ((u ++ c :: w') ++ rest))) in Hm.
  apply greedy_Some in Hm as (k & [_ Hk] & Hrest).
  destruct (match_here (Chr c :: re) (drop k _)) as [m|] eqn:Hm; [|done].
  injection Hrest as <-.
  assert (k = length u) as ->.
  { destruct (decide (k < length u)) as [Hlt|Hge].
    - rewrite <- !(assoc_L (++)) in Hm.
      destruct (forallb_inside cls u k ((c :: w') ++ rest) Hu Hlt)
        as (a & y & Hdrop & Ha).
      rewrite Hdrop in Hm. simpl in Hm. case_bool_decide; [congruence|done].
    - assert (run_length cls ((u ++ c :: w') ++ rest) ≤ length u); [|lia].
      rewrite <- (assoc_L (++)). clear -Hu Hc.
      induction u as [|a u IH]; simpl in *; [by rewrite Hc|].
      apply andb_true_iff in Hu as [-> Hu]. specialize (IH Hu). lia. }
  rewrite <- (assoc_L (++)), drop_app_length in Hm.
  specialize (Hre _ _ _ _ Hm eq_refl Hv). rewrite length_app. lia.
Qed.

(** A repetition, a character, and a final repetition of a class without
    that character: the greedy loop finds the last place where the rest
    matches, and no match reaches beyond it. *)
Lemma longest_rep_chr_rep cls min c cls2 min2 :
  cls2 c = false → longest [Rep cls min; Chr c; Rep cls2 min2].
Proof.
  intros Hc s n w rest Hm -> (u & v & -> & Hu & Hmin & t' & -> & t & e & -> & Ht & Hmin2 & ->).
  rewrite (right_id_L [] (++) t) in *. rewrite <- (assoc_L (++)) in Hm.
  set (s := u ++ (c :: t) ++ rest) in Hm.
  set (cont := λ k, (λ m, k + m) <$> match_here [Chr c; Rep cls2 min2] (drop k s)).
  change (greedy cont min (run_length cls s) = Some n) in Hm.
  apply greedy_Some_max in Hm as (k & [_ Hk] & Hrest & Hmax).
  assert (Hcont : cont (length u) = Some (length u + S (run_length cls2 (t ++ rest)))).
  { unfold cont, s. rewrite drop_app_length.
    change (match_here [Chr c; Rep cls2 min2] ((c :: t) ++ rest))
      with (if bool_decide (c = c) then S <$> match_here [Rep cls2 min2] (t ++ rest)
            else None).
    rewrite bool_decide_eq_true_2, match_here_final_rep by done.
    pose proof (run_length_prefix cls2 t rest Ht).
    destruct (_ <? min2) eqn:Hlt; [apply Nat.ltb_lt in Hlt; lia|done]. }
  pose proof (run_length_prefix cls u ((c :: t) ++ rest) Hu) as HuR. fold s in HuR.
  assert (length u ≤ k) as Hle.
  { destruct (decide (length u ≤ k)) as [|Hgt]; [done|].
    rewrite Hmax in Hcont by lia. done. }
  rewrite !length_app. cbn [length].
  destruct (decide (length u = k)) as [<-|Hne].
  - rewrite Hcont in Hrest. injection Hrest as <-.
    pose proof (run_length_prefix cls2 t rest Ht). lia.
  - destruct (decide (k - length u - 1 < length t)) as [Hin|Hout].
    + exfalso.
      assert (Hd : drop k s = drop (k - length u - 1) (t ++ rest)).
      { unfold s. replace k with (length u + S (k - length u - 1)) at 1 by lia.
        by rewrite <- drop_drop, drop_app_length. }
      unfold cont in Hrest. rewrite Hd in Hrest.
      destruct (forallb_inside cls2 t _ rest Ht Hin) as (a & y & Hdrop & Ha).
      rewrite Hdrop in Hrest. simpl in Hrest.
      case_bool_decide; [congruence|done].
    + unfold cont in Hrest.
      destruct (match_here _ (drop k s)) as [m|]; [|done].
      injection Hrest as <-. lia.
Qed.

Lemma longest_EMAIL : longest EMAIL.
Proof.
  apply longest_rep_chr; [done|]. apply longest_chr.
  by apply longest_rep_chr_rep.
Qed.

Lemma search_Some re s w : longest re → search re s = Some w → first_match re s w.
Proof.
  intros Hre. induction s as [|a s IH]; simpl.
  - destruct (match_here re []) as [n|] eqn:Hn; [|done]. intros [= <-].
    apply match_here_sound in Hn as [_ Hl]. exists [], []. split_and!.
    + by destruct n.
    + done.
    + intros pre' w' post' Heq _. symmetry in Heq.
      apply app_eq_nil in Heq as [-> [-> _]%app_eq_nil]. simpl. lia.
  - destruct (match_here re (a :: s)) as [n|] eqn:Hn.
    + intros [= <-]. pose proof (match_here_sound _ _ _ Hn) as [Hle Hl].
      exists [], (drop n (a :: s)). split_and!.
      * simpl. by rewrite take_drop.
      * done.
      * intros pre' w' post' Heq Hl'. split; [simpl; lia|].
        intros ->%nil_length_inv. simpl in Heq.
        rewrite length_take. specialize (Hre _ _ _ _ Hn Heq Hl'). lia.
    + intros (pre & post & -> & Hl & Hfirst)%IH.
      exists (a :: pre), post. split_and!; [done..|].
      intros pre' w' post' Heq Hl'. destruct pre' as [|b pre'].
      * simpl in Heq. rewrite Heq in Hn.
        by destruct (match_here_complete re w' post' Hl') as [m Hm]; simplify_eq.
      * injection Heq as <- Heq. destruct (Hfirst _ _ _ Heq Hl') as [H1 H2].
        simpl. split; [lia|]. intros ?. apply H2. lia.
Qed.

(** The first match is determined by the pattern and the text. *)
Lemma first_match_unique re s w1 w2 :
  first_match re s w1 → first_match re s w2 → w1 = w2.
Proof.
  intros (pre1 & post1 & -> & Hl1 & H1) (pre2 & post2 & Heq & Hl2 & H2).
  destruct (H1 _ _ _ Heq Hl2) as [Hp12 Hw21].
  destruct (H2 _ _ _ eq_refl Hl1) as [Hp21 Hw12].
  assert (length pre1 = length pre2) as Hpre by lia.
  apply app_inj_1 in Heq as [-> Heq]; [|done].
  apply app_inj_1 in Heq as [-> _]; [done|]. lia.
Qed.

(** An email-shaped string spelled out: a local part, an [@], a domain, a
    dot and a top-level part of at least two letters. *)
Lemma email_shaped_iff w :
  email_shaped w ↔
    ∃ loc dom tld, w = loc ++ "@"%char :: dom ++ "."%char :: tld ∧
      forallb local_char loc = true ∧ 1 ≤ length loc ∧
      forallb domain_char dom = true ∧ 1 ≤ length dom ∧
      forallb alpha tld = true ∧ 2 ≤ length tld.
Proof.
  unfold email_shaped, EMAIL. simpl. split.
  - intros (loc & v1 & -> & Hloc & Hn1 & w1 & -> & dom & v2 & -> & Hdom & Hn2
            & w2 & -> & tld & v3 & -> & Htld & Hn3 & ->).
    exists loc, dom, tld. by rewrite (right_id_L [] (++)).
  - intros (loc & dom & tld & -> & Hloc & Hn1 & Hdom & Hn2 & Htld & Hn3).
    exists loc, ("@"%char :: dom ++ "."%char :: tld). split_and!; [done..|].
    eexists. split; [done|]. exists dom, ("."%char :: tld). split_and!; [done..|].
    eexists. split; [done|]. exists tld, []. by rewrite (right_id_L [] (++)).
Qed.

Lemma email_shaped_nonempty w : email_shaped w → w ≠ [].
Proof.
  intros (loc & dom & tld & -> & _ & Hn & _)%email_shaped_iff.
  destruct loc; simpl in *; [lia|done].
Qed.

(** ** The loops of the extractor *)

Lemma for_each_app {A S} (body : S → A → result S) s l1 l2 :
  for_each body s (l1 ++ l2) = for_each body s l1 ≫= λ s', for_each body s' l2.
Proof.
  revert s. induction l1 as [|x l1 IH]; intros s; simpl; [done|].
  destruct (body s x); simpl; [apply IH|done].
Qed.

Lemma for_each_fmap {A B S} (f : A → B) (body : S → B → result S) s l :
  for_each body s (f <$> l) = for_each (λ s x, body s (f x)) s l.
Proof.
  revert s. induction l as [|x l IH]; intros s; simpl; [done|].
  destruct (body s (f x)); simpl; [apply IH|done].
Qed.

Lemma qualifies_str s :
  qualifies (PyStr s) =
    any_in COMPANY_KEYWORDS (lower s) && negb (any_in ACADEMIC_KEYWORDS (lower s)).
Proof.
  unfold qualifies. rewrite is_company_affiliation_str. by destruct (_ && _).
Qed.

Lemma scan_affiliation_str name acc aff s :
  aff_text_of aff = PyStr s →
  scan_affiliation name acc aff = Ok (scan_text acc (name, s)).
Proof.
  intros Hs. unfold scan_affiliation, scan_text. rewrite Hs.
  rewrite is_company_affiliation_str, qualifies_str. simpl.
  destruct acc as [names affs email]; simpl.
  destruct (_ && _); simpl.
  - destruct (truthy email); simpl; [done|]. by destruct (search EMAIL s).
  - rewrite (right_id_L [] (++)), (right_id_L ∅ (∪)).
    destruct (truthy email); simpl; [done|]. by destruct (search EMAIL s).
Qed.

Lemma scan_affiliation_none name acc aff :
  aff_text_of aff = PyNone → scan_affiliation name acc aff = Raise AttributeError.
Proof. intros Hs. unfold scan_affiliation. by rewrite Hs. Qed.

Lemma scan_affiliation_value name acc aff :
  scan_affiliation name acc aff = scan_value name acc (aff_text_of aff).
Proof. reflexivity. Qed.

Lemma for_each_ext {A S} (body1 body2 : S → A → result S) s l :
  (∀ s x, body1 s x = body2 s x) → for_each body1 s l = for_each body2 s l.
Proof.
  intros Hext. revert s. induction l as [|x l IH]; intros s; simpl; [done|].
  rewrite Hext. destruct (body2 s x); simpl; [apply IH|done].
Qed.

Lemma for_each_scan_author acc authors :
  for_each scan_author acc authors =
    for_each (λ acc p, scan_value p.1 acc p.2) acc (named_affiliations authors).
Proof.
  revert acc. induction authors as [|author authors IH]; intros acc; [done|].
  change (named_affiliations (author :: authors)) with
    (((λ aff, (display_name author, aff_text_of aff)) <$> affiliations_of author)
     ++ named_affiliations authors).
  rewrite for_each_app, for_each_fmap.
  rewrite (for_each_ext _ (scan_affiliation (display_name author))) by done.
  change (for_each scan_author acc (author :: authors)) with
    (for_each (scan_affiliation (display_name author)) acc (affiliations_of author)
     ≫= λ acc', for_each scan_author acc' authors).
  destruct (for_each _ acc (affiliations_of author)) as [acc'|e]; simpl;
    [apply IH|done].
Qed.

Lemma scan_value_str name acc s :
  scan_value name acc (PyStr s) = Ok (scan_text acc (name, s)).
Proof. by apply scan_affiliation_str. Qed.

Lemma scan_value_none name acc : scan_value name acc PyNone = Raise AttributeError.
Proof. by apply scan_affiliation_none. Qed.

Lemma for_each_cons {A S} (body : S → A → result S) s x l :
  for_each body s (x :: l) = body s x ≫= λ s', for_each body s' l.
Proof. reflexivity. Qed.

Lemma for_each_scan_texts acc ps :
  for_each (λ acc p, scan_value p.1 acc p.2) acc (as_values ps) =
    Ok (foldl scan_text acc ps).
Proof.
  revert acc. induction ps as [|[name s] ps IH]; intros acc; [done|].
  change (as_values ((name, s) :: ps)) with ((name, PyStr s) :: as_values ps).
  rewrite for_each_cons. cbn [fst snd]. rewrite scan_value_str.
  apply IH.
Qed.

Lemma for_each_scan_none acc l :
  PyNone ∈ l.*2 →
  for_each (λ acc p, scan_value p.1 acc p.2) acc l = Raise AttributeError.
Proof.
  revert acc. induction l as [|[name v] l IH]; intros acc.
  - by intros ?%elem_of_nil.
  - rewrite fmap_cons, for_each_cons. cbn [fst snd]. intros Hin.
    destruct v as [|s].
    + by rewrite scan_value_none.
    + apply elem_of_cons in Hin as [?|Hin]; [done|].
      rewrite scan_value_str. by apply IH.
Qed.

Lemma as_values_exists (l : list (text * pyval)) :
  PyNone ∉ l.*2 → ∃ ps, l = as_values ps.
Proof.
  induction l as [|[name v] l IH]; simpl.
  - by exists [].
  - intros Hnot. apply not_elem_of_cons in Hnot as [Hv Hl].
    destruct (IH Hl) as [ps ->]. destruct v as [|s]; [done|].
    by exists ((name, s) :: ps).
Qed.

(** The three accumulators after a run of the loops. *)
Lemma as_values_cons name s ps :
  as_values ((name, s) :: ps) = (name, PyStr s) :: as_values ps.
Proof. reflexivity. Qed.

Lemma foldl_scan_text_names acc ps :
  non_academic_authors (foldl scan_text acc ps) =
    non_academic_authors acc
    ++ (filter (λ p, qualifies p.2 = true) (as_values ps)).*1.
Proof.
  revert acc. induction ps as [|[name s] ps IH]; intros acc.
  - simpl. by rewrite (right_id_L [] (++)).
  - rewrite as_values_cons. cbn [foldl]. rewrite IH.
    unfold scan_text at 1. cbn [non_academic_authors fst snd].
    destruct (qualifies (PyStr s)) eqn:Hq.
    + rewrite filter_cons_True by done. by rewrite fmap_cons, <- (assoc_L (++)).
    + rewrite filter_cons_False by (cbn [snd]; congruence).
      by rewrite (right_id_L [] (++)).
Qed.

Lemma foldl_scan_text_affiliations acc ps v :
  v ∈ company_affiliations (foldl scan_text acc ps) ↔
    v ∈ company_affiliations acc ∨
    v ∈ filter (λ v, qualifies v = true) (as_values ps).*2.
Proof.
  revert acc. induction ps as [|[name s] ps IH]; intros acc.
  - simpl. rewrite filter_nil, elem_of_nil. tauto.
  - rewrite as_values_cons, fmap_cons. cbn [foldl snd]. rewrite IH.
    unfold scan_text at 1. cbn [company_affiliations fst snd].
    destruct (qualifies (PyStr s)) eqn:Hq.
    + rewrite filter_cons_True by done. set_solver.
    + rewrite filter_cons_False by congruence. set_solver.
Qed.

Lemma search_email_nonempty s e : search EMAIL s = Some e → e ≠ [].
Proof.
  intros (? & ? & _ & Hl)%search_Some_lang. by apply email_shaped_nonempty.
Qed.

Lemma foldl_scan_text_email acc ps :
  corresponding_email acc ≠ Some [] →
  corresponding_email (foldl scan_text acc ps) =
    match corresponding_email acc with
    | Some e => Some e
    | None => first_email ps.*2
    end.
Proof.
  revert acc. induction ps as [|[name s] ps IH]; intros acc Hacc; simpl.
  - by destruct (corresponding_email acc).
  - rewrite IH; simpl.
    + destruct (corresponding_email acc) as [[|c e]|]; simpl; [done..|].
      by destruct (search EMAIL s).
    + destruct (corresponding_email acc) as [[|c e]|]; simpl; [done..|].
      destruct (search EMAIL s) as [e|] eqn:Hs; [|done].
      apply search_email_nonempty in Hs. congruence.
Qed.

Lemma as_values_snd ps : (as_values ps).*2 = PyStr <$> ps.*2.
Proof. unfold as_values. rewrite <- !list_fmap_compose. done. Qed.

Lemma strings_str l : strings (PyStr <$> l) = l.
Proof. induction l as [|s l IH]; [done|]. unfold strings in *. simpl. by f_equal. Qed.

Section Extractor_facts.

Variable set_iter : gset pyval → list pyval.

(** On an author list whose affiliation texts are all strings the
    extractor returns, and its three results have closed forms. *)
Lemma extract_authors_info_str authors :
  PyNone ∉ aff_texts authors →
  ∃ affs : gset pyval,
    extract_authors_info set_iter authors =
      Ok (qualifying_names authors, set_iter affs,
          first_email (strings (aff_texts authors))) ∧
    ∀ v, v ∈ affs ↔ v ∈ qualifying_texts authors.
Proof.
  intros Hstr. unfold extract_authors_info. rewrite for_each_scan_author.
  destruct (as_values_exists _ Hstr) as [ps Hps].
  rewrite Hps, for_each_scan_texts. simpl.
  exists (company_affiliations (foldl scan_text accum_init ps)). split.
  - f_equal. f_equal; [f_equal|].
    + rewrite foldl_scan_text_names. simpl. unfold qualifying_names.
      by rewrite Hps.
    + rewrite foldl_scan_text_email by done. simpl.
      unfold aff_texts. by rewrite Hps, as_values_snd, strings_str.
  - intros v. rewrite foldl_scan_text_affiliations. simpl.
    unfold qualifying_texts, aff_texts. rewrite Hps. set_solver.
Qed.

(** A [None] among the affiliation texts makes the extractor raise. *)
Lemma extract_authors_info_none authors :
  PyNone ∈ aff_texts authors →
  extract_authors_info set_iter authors = Raise AttributeError.
Proof.
  intros Hin. unfold extract_authors_info.
  by rewrite for_each_scan_author, for_each_scan_none.
Qed.

End Extractor_facts.

(** ** The corresponding email *)

Lemma first_email_None texts :
  first_email texts = None ↔ ∀ t, t ∈ texts → ¬ has_match EMAIL t.
Proof.
  induction texts as [|t texts IH]; simpl.
  - split; [|done]. by intros _ t ?%elem_of_nil.
  - destruct (search EMAIL t) as [e|] eqn:Hs.
    + split; [done|]. intros Hno. exfalso. apply (Hno t); [left|].
      apply search_is_Some. eauto.
    + rewrite IH. apply search_None in Hs. split.
      * intros Hno t' [->|Hin]%elem_of_cons; auto.
      * intros Hno t' Hin. apply Hno. by right.
Qed.

Lemma first_email_Some texts e :
  first_email texts = Some e →
  ∃ before t after, texts = before ++ t :: after ∧
    (∀ t', t' ∈ before → ¬ has_match EMAIL t') ∧ first_match EMAIL t e.
Proof.
  induction texts as [|t texts IH]; simpl; [done|].
  destruct (search EMAIL t) as [e'|] eqn:Hs.
  - intros [= ->]. exists [], t, texts.
    split_and!; [done| |by apply (search_Some _ _ _ longest_EMAIL)].
    by intros t' ?%elem_of_nil.
  - intros (before & t0 & after & -> & Hno & Hfirst)%IH.
    exists (t :: before), t0, after. split_and!; [done| |done].
    intros t' [->|Hin]%elem_of_cons; [by apply search_None|auto].
Qed.

Section Extractor_claims.

Variable set_iter : gset pyval → list pyval.

(** C2. On an author list whose affiliation texts are strings, the
    extractor returns, and its email is the first email-shaped substring
    met when every affiliation text of every author is read in document
    order, whatever the classifier says about the affiliation: it is the
    first match (the one that starts first, and the longest of those that
    start there) in the first text that contains an email-shaped
    substring, and it is [None] exactly when no affiliation text contains
    one. *)
Theorem C2_corresponding_email authors :
  PyNone ∉ aff_texts authors →
  ∃ names affs email,
    extract_authors_info set_iter authors = Ok (names, affs, email) ∧
    (email = None ↔
       ∀ t, t ∈ strings (aff_texts authors) →
         ¬ ∃ w, substring w t ∧ email_shaped w) ∧
    (∀ e, email = Some e →
       ∃ before t after,
         strings (aff_texts authors) = before ++ t :: after ∧
         (∀ t', t' ∈ before → ¬ ∃ w, substring w t' ∧ email_shaped w) ∧
         first_match EMAIL t e).
Proof.
  intros Hstr. destruct (extract_authors_info_str set_iter _ Hstr) as (X & HX & _).
  eexists _, _, _. split; [exact HX|]. split.
  - apply first_email_None.
  - intros e. apply first_email_Some.
Qed.

End Extractor_claims.

Lemma C2_corresponding_email_witness :
  ∃ names affs email,
    extract_authors_info elements authors_example = Ok (names, affs, email) ∧
    (email = None ↔
       ∀ t, t ∈ strings (aff_texts authors_example) →
         ¬ ∃ w, substring w t ∧ email_shaped w) ∧
    (∀ e, email = Some e →
       ∃ before t after,
         strings (aff_texts authors_example) = before ++ t :: after ∧
         (∀ t', t' ∈ before → ¬ ∃ w, substring w t' ∧ email_shaped w) ∧
         first_match EMAIL t e).
Proof.
  apply (C2_corresponding_email elements authors_example).
  apply (bool_decide_unpack _). vm_compute. exact I.
Defined.

Example extract_authors_example :
  (λ '(names, affs, email), (names, length affs, email))
    <$> match extract_authors_info elements authors_example with
        | Ok r => Some r
        | Raise _ => None
        end
  = Some ([str "Doe John"; str "Doe John"; str "Poe Eve"], 2, Some (str "j@acme.com")).
Proof. vm_compute. reflexivity. Qed.

(** ** The company affiliations *)

Lemma elem_of_first_seen l x : x ∈ first_seen l ↔ x ∈ l.
Proof.
  induction l as [|y l IH]; simpl; [done|].
  rewrite !elem_of_cons, list_elem_of_filter, IH.
  destruct (decide (x = y)); naive_solver.
Qed.

Lemma NoDup_first_seen l : NoDup (first_seen l).
Proof.
  induction l as [|y l IH]; simpl; [constructor|].
  constructor; [|by apply NoDup_filter].
  rewrite list_elem_of_filter. naive_solver.
Qed.

Lemma NoDup_filter_eq_length (l : list pyval) v :
  NoDup l → v ∈ l → length (filter (λ x, x = v) l) = 1.
Proof.
  induction 1 as [|x l Hx Hl IH]; [by intros ?%elem_of_nil|].
  intros Hin. destruct (decide (x = v)) as [->|Hne].
  - rewrite filter_cons_True by done. simpl. f_equal.
    destruct (filter (λ x, x = v) l) as [|y k] eqn:Hf; [done|].
    assert (y ∈ filter (λ x, x = v) l) as [-> ?]%list_elem_of_filter
      by (rewrite Hf; left).
    done.
  - rewrite filter_cons_False by done. apply IH.
    apply elem_of_cons in Hin as [Heq|Hin]; [by subst|done].
Qed.

Section Affiliations_claims.

Variable set_iter : gset pyval → list pyval.

(** The one thing known about the order of [list(a_set)]: it lists the
    elements of the set, each once. *)
Hypothesis set_iter_elements : ∀ X, set_iter X ≡ₚ elements X.

Lemma extract_authors_info_affs authors :
  PyNone ∉ aff_texts authors →
  ∃ names affs email,
    extract_authors_info set_iter authors = Ok (names, affs, email) ∧
    NoDup affs ∧ ∀ v, v ∈ affs ↔ v ∈ qualifying_texts authors.
Proof.
  intros Hstr. destruct (extract_authors_info_str set_iter _ Hstr) as (X & HX & Hin).
  eexists _, _, _. split; [exact HX|]. split.
  - rewrite set_iter_elements. apply NoDup_elements.
  - intros v. by rewrite set_iter_elements, elem_of_elements.
Qed.

(** C5, as the code has it.  The extractor emits each distinct
    company-classified affiliation text once, in the order in which the
    set yields them: a rearrangement of the first-seen list, which it
    equals when at most one distinct text qualifies. *)
Theorem C5_affiliations_permutation authors :
  PyNone ∉ aff_texts authors →
  ∃ names affs email,
    extract_authors_info set_iter authors = Ok (names, affs, email) ∧
    affs ≡ₚ first_seen (qualifying_texts authors) ∧
    (length (first_seen (qualifying_texts authors)) ≤ 1 →
       affs = first_seen (qualifying_texts authors)).
Proof.
  intros Hstr.
  destruct (extract_authors_info_affs _ Hstr) as (names & affs & email & HX & Hnd & Hin).
  exists names, affs, email. split; [done|].
  assert (Hperm : affs ≡ₚ first_seen (qualifying_texts authors)).
  { apply NoDup_Permutation; [done|apply NoDup_first_seen|].
    intros v. by rewrite elem_of_first_seen. }
  split; [done|]. intros Hlen.
  destruct (first_seen (qualifying_texts authors)) as [|x [|y l]]; simpl in Hlen.
  - by apply Permutation_nil_r.
  - by apply Permutation_singleton_r.
  - lia.
Qed.

(** C6. The list of company affiliations the extractor emits has no
    duplicates: it holds exactly the company-classified affiliation
    texts of the paper, and each of them occurs in it once, however many
    authors carry it and however often. *)
Theorem C6_affiliations_no_duplicates authors :
  PyNone ∉ aff_texts authors →
  ∃ names affs email,
    extract_authors_info set_iter authors = Ok (names, affs, email) ∧
    NoDup affs ∧
    (∀ v, v ∈ affs ↔ v ∈ qualifying_texts authors) ∧
    (∀ v, v ∈ qualifying_texts authors →
       length (filter (λ x, x = v) affs) = 1).
Proof.
  intros Hstr.
  destruct (extract_authors_info_affs _ Hstr) as (names & affs & email & HX & Hnd & Hin).
  exists names, affs, email. split_and!; [done..|].
  intros v Hv. apply NoDup_filter_eq_length; [done|]. by apply Hin.
Qed.

End Affiliations_claims.

Lemma elements_permutation (X : gset pyval) : elements X ≡ₚ elements X.
Proof. done. Qed.

Lemma C5_affiliations_permutation_witness :
  ∃ names affs email,
    extract_authors_info elements authors_example = Ok (names, affs, email) ∧
    affs ≡ₚ first_seen (qualifying_texts authors_example) ∧
    (length (first_seen (qualifying_texts authors_example)) ≤ 1 →
       affs = first_seen (qualifying_texts authors_example)).
Proof.
  apply (C5_affiliations_permutation elements elements_permutation authors_example).
  apply (bool_decide_unpack _). vm_compute. exact I.
Defined.

Lemma C6_affiliations_no_duplicates_witness :
  ∃ names affs email,
    extract_authors_info elements authors_example = Ok (names, affs, email) ∧
    NoDup affs ∧
    (∀ v, v ∈ affs ↔ v ∈ qualifying_texts authors_example) ∧
    (∀ v, v ∈ qualifying_texts authors_example →
       length (filter (λ x, x = v) affs) = 1).
Proof.
  apply (C6_affiliations_no_duplicates elements elements_permutation authors_example).
  apply (bool_decide_unpack _). vm_compute. exact I.
Defined.

Lemma reverse_elements_permutation X : reverse_elements X ≡ₚ elements X.
Proof. apply reverse_Permutation. Qed.

(** C5 as stated fails: no order of the set is fixed by the code.  Under
    an order that lists the elements of every set once, the extractor
    emits the two company affiliations of the example paper in the order
    opposite to the one in which they are first seen. *)
Lemma C5_first_seen_counterexample :
  (∀ X, reverse_elements X ≡ₚ elements X) ∧
  first_seen (qualifying_texts authors_example)
    = [PyStr (str "Acme Biotech Ltd, j@acme.com"); PyStr (str "XYZ Pharma Inc")] ∧
  ∃ names affs email,
    extract_authors_info reverse_elements authors_example
      = Ok (names, affs, email) ∧
    affs = [PyStr (str "XYZ Pharma Inc"); PyStr (str "Acme Biotech Ltd, j@acme.com")] ∧
    affs ≠ first_seen (qualifying_texts authors_example).
Proof.
  split; [apply reverse_elements_permutation|].
  split; [vm_compute; reflexivity|].
  eexists _, _, _. split; [vm_compute; reflexivity|].
  split; [reflexivity|]. vm_compute. discriminate.
Qed.

(** ** Stripping *)

Lemma lstrip_of_all p pre s :
  forallb p pre = true → lstrip_of p (pre ++ s) = lstrip_of p s.
Proof.
  induction pre as [|c pre IH]; simpl; [done|].
  intros [Hc Hpre]%andb_true_iff. rewrite Hc. by apply IH.
Qed.

Lemma lstrip_of_keep p s : (head s ≫= λ c, Some (p c)) ≠ Some true → lstrip_of p s = s.
Proof. destruct s as [|c s]; simpl; [done|]. by destruct (p c). Qed.

Lemma lstrip_of_app_keep p x y :
  (head y ≫= λ c, Some (p c)) = Some false →
  lstrip_of p (x ++ y) = lstrip_of p x ++ y.
Proof.
  intros Hy. induction x as [|c x IH]; simpl.
  - apply lstrip_of_keep. by rewrite Hy.
  - by destruct (p c).
Qed.

Lemma forallb_reverse_true (p : ascii → bool) l :
  forallb p l = true → forallb p (reverse l) = true.
Proof.
  induction l as [|c l IH]; simpl; [done|].
  intros [Hc Hl]%andb_true_iff. rewrite reverse_cons, forallb_app, IH by done.
  simpl. by rewrite Hc.
Qed.

Lemma rstrip_of_all p s post :
  forallb p post = true → rstrip_of p (s ++ post) = rstrip_of p s.
Proof.
  intros Hpost. unfold rstrip_of. rewrite reverse_app, lstrip_of_all; [done|].
  by apply forallb_reverse_true.
Qed.

Lemma rstrip_of_keep p s : (last s ≫= λ c, Some (p c)) ≠ Some true → rstrip_of p s = s.
Proof.
  intros Hs. unfold rstrip_of. rewrite lstrip_of_keep; [apply reverse_involutive|].
  by rewrite head_reverse.
Qed.

Lemma rstrip_of_app_keep p x y :
  (last x ≫= λ c, Some (p c)) = Some false →
  rstrip_of p (x ++ y) = x ++ rstrip_of p y.
Proof.
  intros Hx. unfold rstrip_of. rewrite reverse_app, lstrip_of_app_keep.
  - by rewrite reverse_app, reverse_involutive.
  - by rewrite head_reverse.
Qed.

(** Stripping removes what surrounds a core that neither begins nor ends
    with a stripped character. *)
Lemma strip_of_core p pre core post :
  forallb p pre = true → forallb p post = true →
  (head core ≫= λ c, Some (p c)) ≠ Some true →
  (last core ≫= λ c, Some (p c)) ≠ Some true →
  strip_of p (pre ++ core ++ post) = core.
Proof.
  intros Hpre Hpost Hhead Hlast. unfold strip_of. rewrite lstrip_of_all by done.
  destruct core as [|c core].
  - simpl. rewrite <- (right_id_L [] (++) post), lstrip_of_all by done. done.
  - rewrite lstrip_of_keep.
    + rewrite rstrip_of_all by done. by apply rstrip_of_keep.
    + simpl in *. done.
Qed.

Lemma strip_of_suffix p x y :
  (head y ≫= λ c, Some (p c)) = Some false →
  (last y ≫= λ c, Some (p c)) = Some false →
  strip_of p (x ++ y) = lstrip_of p x ++ y.
Proof.
  intros Hhead Hlast. unfold strip_of. rewrite lstrip_of_app_keep by done.
  apply rstrip_of_keep. rewrite last_app.
  destruct (last y); simpl in *; [congruence|done].
Qed.

Lemma strip_of_prefix p x y :
  (head x ≫= λ c, Some (p c)) = Some false →
  (last x ≫= λ c, Some (p c)) = Some false →
  strip_of p (x ++ y) = x ++ rstrip_of p y.
Proof.
  intros Hhead Hlast. unfold strip_of. rewrite lstrip_of_keep.
  - by apply rstrip_of_app_keep.
  - destruct x as [|c x]; simpl in *; [done|]. congruence.
Qed.

(** ** The publication date *)

Lemma present_nil parts : present ([] :: parts) = present parts.
Proof. unfold present. by rewrite filter_cons_False by (by intros []). Qed.

Lemma present_cons c s parts : present ((c :: s) :: parts) = (c :: s) :: present parts.
Proof. unfold present. by rewrite filter_cons_True. Qed.

Lemma strip_dash_core pre core post :
  forallb is_dash pre = true → forallb is_dash post = true →
  head core ≠ Some "-"%char → last core ≠ Some "-"%char →
  strip_dash (pre ++ core ++ post) = core.
Proof.
  intros Hpre Hpost Hhead Hlast. apply strip_of_core; [done..| |].
  - destruct (head core) as [c|]; simpl; [|done]. unfold is_dash.
    case_bool_decide; congruence.
  - destruct (last core) as [c|]; simpl; [|done]. unfold is_dash.
    case_bool_decide; congruence.
Qed.

Lemma present_empty : present [] = [].
Proof. reflexivity. Qed.

Lemma last_app_cons_dash (x : text) c y :
  last (c :: y) ≠ Some "-"%char → last (x ++ c :: y) ≠ Some "-"%char.
Proof.
  intros Hlast. rewrite last_app.
  destruct (last (c :: y)) eqn:Hcy; [done|]. by apply last_None in Hcy.
Qed.

(** Rewrites [strip_dash s] to the stripping of [pre ++ core ++ post], and
    strips. *)
Ltac strip_to pre core post :=
  trans (strip_dash (pre ++ core ++ post));
  [ f_equal; simpl; rewrite ?(right_id_L [] (++)), <- ?(assoc_L (++)); reflexivity
  | rewrite strip_dash_core;
    [ simpl; rewrite ?(right_id_L [] (++)), <- ?(assoc_L (++)); reflexivity
    | try done; try (rewrite ?(assoc_L (++)); apply last_app_cons_dash; done) .. ] ].

Lemma format_date_present year month day :
  (∀ s, s ∈ present [year; month; day] →
     head s ≠ Some "-"%char ∧ last s ≠ Some "-"%char) →
  ¬ (year ≠ [] ∧ month = [] ∧ day ≠ []) →
  format_date year month day = join (str "-") (present [year; month; day]).
Proof.
  intros Hclean Hgap. unfold format_date.
  destruct year as [|cy y], month as [|cm m], day as [|cd d];
    rewrite ?present_nil, ?present_cons, ?present_empty in *;
    repeat match goal with
    | H : ∀ s, s ∈ _ :: _ → _ |- _ =>
        let Hh := fresh "Hh" in let Hl := fresh "Hl" in
        pose proof (H _ (list_elem_of_here _ _)) as [Hh Hl];
        pose proof (λ s Hs, H s (list_elem_of_further _ _ _ Hs)); clear H
    end.
  - strip_to (str "--") (@nil ascii) (@nil ascii).
  - strip_to (str "--") (cd :: d) (@nil ascii).
  - strip_to (str "-") (cm :: m) (str "-").
  - strip_to (str "-") ((cm :: m) ++ str "-" ++ cd :: d) (@nil ascii).
  - strip_to (@nil ascii) (cy :: y) (str "--").
  - exfalso. by apply Hgap.
  - strip_to (@nil ascii) ((cy :: y) ++ str "-" ++ cm :: m) (str "-").
  - strip_to (@nil ascii) ((cy :: y) ++ str "-" ++ (cm :: m) ++ str "-" ++ cd :: d)
      (@nil ascii).
Qed.

(** C7, as the code has it.  An article without a [PubDate] has the
    empty date.  Otherwise the date is [Year-Month-Day], an absent or
    empty component written as the empty string, with the hyphens at both
    ends stripped.  When no present component begins or ends with a
    hyphen, and the month is not missing between a year and a day, this
    is the present components joined by [-]: no separator stands for an
    absent component. *)
Theorem C7_publication_date article :
  (find_below (str "PubDate") article = None → pub_date_of article = []) ∧
  ∀ pub_date_el, find_below (str "PubDate") article = Some pub_date_el →
    let year := or_empty (findtext (str "Year") pub_date_el) in
    let month := or_empty (findtext (str "Month") pub_date_el) in
    let day := or_empty (findtext (str "Day") pub_date_el) in
    pub_date_of article
      = strip_dash (year ++ str "-" ++ month ++ str "-" ++ day) ∧
    ((∀ s, s ∈ present [year; month; day] →
        head s ≠ Some "-"%char ∧ last s ≠ Some "-"%char) →
     ¬ (year ≠ [] ∧ month = [] ∧ day ≠ []) →
     pub_date_of article = join (str "-") (present [year; month; day])).
Proof.
  unfold pub_date_of. split.
  - by intros ->.
  - intros pub_date_el ->. split; [done|]. apply format_date_present.
Qed.

Lemma C7_publication_date_witness :
  pub_date_of article_year_month = str "2020-Jan" ∧
  pub_date_of article_year_only = str "2020".
Proof.
  split.
  - refine (proj2 (proj2 (C7_publication_date article_year_month) _ eq_refl) _ _).
    + intros s Hs. revert s Hs. apply Forall_forall.
      apply (bool_decide_unpack _). vm_compute. exact I.
    + intros (_ & Hm & _). discriminate Hm.
  - refine (proj2 (proj2 (C7_publication_date article_year_only) _ eq_refl) _ _).
    + intros s Hs. revert s Hs. apply Forall_forall.
      apply (bool_decide_unpack _). vm_compute. exact I.
    + intros (_ & _ & Hd). by apply Hd.
Defined.

(** C7 as stated fails on a date with a year and a day and no month: the
    two separators around the missing month both stay. *)
Lemma C7_separator_counterexample :
  pub_date_of article_year_day = str "2020--15" ∧
  pub_date_of article_year_day ≠ join (str "-") [str "2020"; str "15"].
Proof. split; [reflexivity|]. vm_compute. discriminate. Qed.

(** ** Joining and splitting *)

Lemma split_no_sep c x : c ∉ x → split c x = [x].
Proof.
  induction x as [|a x IH]; simpl; [done|].
  intros [Hne Hx]%not_elem_of_cons. rewrite bool_decide_eq_false_2 by done.
  by rewrite IH.
Qed.

Lemma split_app_sep c x rest :
  c ∉ x → split c (x ++ c :: rest) = x :: split c rest.
Proof.
  induction x as [|a x IH]; simpl.
  - intros _. by rewrite bool_decide_eq_true_2.
  - intros [Hne Hx]%not_elem_of_cons. rewrite bool_decide_eq_false_2 by done.
    by rewrite IH.
Qed.

Lemma split_cons_ne c a s :
  a ≠ c → split c (a :: s) = match split c s with
                             | [] => [[a]]
                             | w :: ws => (a :: w) :: ws
                             end.
Proof. intros Hne. simpl. by rewrite bool_decide_eq_false_2. Qed.

(** What [split(";")] returns on a ["; "]-joined list: the first element,
    then every other element behind the blank of the joiner. *)
Lemma split_join x l :
  (∀ y, y ∈ x :: l → ";"%char ∉ y) →
  split ";" (join (str "; ") (x :: l)) = x :: ((" "%char ::.) <$> l).
Proof.
  revert x. induction l as [|y l IH]; intros x Hfree.
  - simpl. apply split_no_sep, Hfree. left.
  - change (join (str "; ") (x :: y :: l))
      with (x ++ ";"%char :: " "%char :: join (str "; ") (y :: l)).
    rewrite split_app_sep by (apply Hfree; left).
    rewrite split_cons_ne by done. rewrite IH; [done|].
    intros z Hz. apply Hfree. by right.
Qed.

Lemma unpad_split_join l :
  l ≠ [] → (∀ y, y ∈ l → ";"%char ∉ y) →
  unpad (split ";" (join (str "; ") l)) = l.
Proof.
  destruct l as [|x l]; [done|]. intros _ Hfree. rewrite split_join by done.
  simpl. f_equal. rewrite <- list_fmap_compose. apply list_fmap_id.
Qed.

(** ** The parser *)

Lemma filter_fmap {A B} (f : A → B) (P : B → Prop) `{∀ x, Decision (P x)}
    (l : list A) :
  filter P (f <$> l) = f <$> filter (λ x, P (f x)) l.
Proof.
  induction l as [|x l IH]; [done|]. rewrite fmap_cons, !filter_cons, IH.
  by destruct (decide (P (f x))).
Qed.

Lemma qualifying_texts_named authors :
  qualifying_texts authors =
    (filter (λ p, qualifies p.2 = true) (named_affiliations authors)).*2.
Proof. unfold qualifying_texts, aff_texts. apply filter_fmap. Qed.

Lemma qualifying_names_nil authors :
  qualifying_names authors = [] ↔ qualifying_texts authors = [].
Proof.
  rewrite qualifying_texts_named. unfold qualifying_names.
  by destruct (filter _ (named_affiliations authors)).
Qed.

Lemma qualifying_texts_str authors : PyNone ∉ qualifying_texts authors.
Proof. unfold qualifying_texts. by intros [? _]%list_elem_of_filter. Qed.

Lemma as_texts_str texts : as_texts (PyStr <$> texts) = Ok texts.
Proof.
  induction texts as [|s texts IH]; [done|].
  rewrite fmap_cons. cbn [as_texts]. by rewrite IH.
Qed.

Lemma str_values (l : list pyval) : PyNone ∉ l → ∃ texts, l = PyStr <$> texts.
Proof.
  induction l as [|[|s] l IH]; intros Hl.
  - by exists [].
  - exfalso. apply Hl. left.
  - apply not_elem_of_cons in Hl as [_ Hl]. destruct (IH Hl) as [texts ->].
    by exists (s :: texts).
Qed.

Section Parser_facts.

Variable set_iter : gset pyval → list pyval.
Hypothesis set_iter_elements : ∀ X, set_iter X ≡ₚ elements X.

(** What the loop body of the parser does with an article whose
    affiliation texts are strings. *)
Lemma parse_article_str article :
  PyNone ∉ aff_texts (authors_of article) →
  ∃ names texts email,
    extract_authors_info set_iter (authors_of article)
      = Ok (names, PyStr <$> texts, email) ∧
    (names = [] ↔ texts = []) ∧
    parse_article set_iter article =
      Ok (match names with
          | [] => None
          | _ :: _ => Some (record_of article names texts email)
          end).
Proof.
  intros Hstr.
  destruct (extract_authors_info_affs set_iter set_iter_elements _ Hstr)
    as (names & affs & email & HX & _ & Hin).
  destruct (str_values affs) as [texts ->].
  { rewrite Hin. apply qualifying_texts_str. }
  exists names, texts, email. split; [done|].
  assert (names = qualifying_names (authors_of article)) as Hnames.
  { destruct (extract_authors_info_str set_iter _ Hstr) as (X & HX' & _).
    rewrite HX in HX'. by injection HX'. }
  split.
  - rewrite Hnames, qualifying_names_nil. split.
    + intros Hnil. destruct texts as [|s texts]; [done|].
      assert (PyStr s ∈ qualifying_texts (authors_of article)) as Hs
        by (apply Hin; left).
      rewrite Hnil in Hs. by apply elem_of_nil in Hs.
    + intros ->. destruct (qualifying_texts _) as [|v l]; [done|].
      assert (v ∈ PyStr <$> []) as Hv by (apply Hin; left).
      by apply elem_of_nil in Hv.
  - unfold parse_article. rewrite HX. simpl. destruct names as [|n names]; [done|].
    unfold py_join. by rewrite as_texts_str.
Qed.

Lemma parse_article_none article :
  PyNone ∈ aff_texts (authors_of article) →
  parse_article set_iter article = Raise AttributeError.
Proof.
  intros Hin. unfold parse_article.
  by rewrite (extract_authors_info_none set_iter _ Hin).
Qed.

Lemma for_each_append_result acc articles outcomes :
  Forall2 (λ a o, parse_article set_iter a = Ok o) articles outcomes →
  for_each (append_result set_iter) acc articles
    = Ok (acc ++ concat (option_list <$> outcomes)).
Proof.
  intros Hall. revert acc.
  induction Hall as [|a o articles outcomes Ha _ IH]; intros acc.
  - simpl. by rewrite (right_id_L [] (++)).
  - rewrite for_each_cons.
    change (append_result set_iter acc a)
      with (parse_article set_iter a ≫= λ r, mret (acc ++ option_list r)).
    rewrite Ha.
    change (for_each (append_result set_iter) (acc ++ option_list o) articles
            = Ok (acc ++ option_list o ++ concat (option_list <$> outcomes))).
    by rewrite IH, (assoc_L (++)).
Qed.

End Parser_facts.

Lemma parse_pubmed_xml_root set_iter fromstring xml_str root :
  fromstring xml_str = Ok root →
  parse_pubmed_xml set_iter fromstring xml_str = parse_root set_iter root.
Proof. intros Hroot. unfold parse_pubmed_xml. by rewrite Hroot. Qed.

Section Parser_claims.

Variable set_iter : gset pyval → list pyval.
Hypothesis set_iter_elements : ∀ X, set_iter X ≡ₚ elements X.
Variable fromstring : text → result Element.

(** C3. On a document that parses and whose affiliation texts are
    strings the parser returns, and its output is made of the
    contributions of the articles in document order, where an article
    contributes its one record if the list of names the extractor derives
    for it is non-empty, and nothing if that list is empty. *)
Theorem C3_record_iff_nonempty xml_str root :
  fromstring xml_str = Ok root →
  (∀ article, article ∈ findall_below (str "PubmedArticle") root →
     PyNone ∉ aff_texts (authors_of article)) →
  ∃ results contributions,
    parse_pubmed_xml set_iter fromstring xml_str = Ok results ∧
    results = concat contributions ∧
    Forall2 (λ article contribution,
        ∃ names affs email record,
          extract_authors_info set_iter (authors_of article)
            = Ok (names, affs, email) ∧
          parse_article set_iter article = Ok record ∧
          contribution = option_list record ∧
          (is_Some record ↔ names ≠ []) ∧
          (names = [] → contribution = []))
      (findall_below (str "PubmedArticle") root) contributions.
Proof.
  intros Hroot. rewrite (parse_pubmed_xml_root _ _ _ _ Hroot).
  unfold parse_root. generalize (findall_below (str "PubmedArticle") root).
  intros articles Hstr.
  assert (∃ outcomes,
    Forall2 (λ a o, parse_article set_iter a = Ok o) articles outcomes ∧
    Forall2 (λ a o, ∃ names affs email,
        extract_authors_info set_iter (authors_of a) = Ok (names, affs, email) ∧
        (is_Some o ↔ names ≠ [])) articles outcomes) as (outcomes & Hrun & Hiff).
  { induction articles as [|a articles IH].
    - exists []. split; constructor.
    - destruct IH as (outcomes & Hrun & Hiff).
      { intros a' Ha'. apply Hstr. by right. }
      destruct (parse_article_str set_iter set_iter_elements a)
        as (names & texts & email & HX & _ & Hparse); [apply Hstr; left|].
      eexists (_ :: outcomes). split; constructor; try done.
      exists names, (PyStr <$> texts), email. split; [done|].
      destruct names; split; intros H; try done; by destruct H. }
  exists (concat (option_list <$> outcomes)), (option_list <$> outcomes).
  split; [by rewrite (for_each_append_result _ _ _ outcomes)|]. split; [done|].
  apply Forall2_fmap_r.
  clear Hstr. induction Hrun as [|a o articles outcomes Ha Hrun IH].
  - constructor.
  - inversion Hiff as [|? ? ? ? (names & affs & email & HX & Ho) Hiff']; subst.
    constructor; [|by apply IH].
    exists names, affs, email, o. split_and!; [done..|].
    intros ->. destruct o; [|done]. destruct Ho as [Ho _]. by destruct Ho.
Qed.

(** C8, as the code has it.  The two lists of a record are joined with
    a semicolon and a blank.  When no name or text contains a semicolon,
    splitting a joined string on [;] gives the first element followed by
    the other elements each behind one blank, and taking that blank away
    gives back the list in its order. *)
Theorem C8_join_split article p :
  parse_article set_iter article = Ok (Some p) →
  ∃ names texts email,
    extract_authors_info set_iter (authors_of article)
      = Ok (names, PyStr <$> texts, email) ∧
    Non_academicAuthors p = join (str "; ") names ∧
    CompanyAffiliations p = join (str "; ") texts ∧
    ((∀ y, y ∈ names → ";"%char ∉ y) →
       split ";" (Non_academicAuthors p)
         = default [] (head names) :: ((" "%char ::.) <$> tail names) ∧
       unpad (split ";" (Non_academicAuthors p)) = names) ∧
    ((∀ y, y ∈ texts → ";"%char ∉ y) →
       split ";" (CompanyAffiliations p)
         = default [] (head texts) :: ((" "%char ::.) <$> tail texts) ∧
       unpad (split ";" (CompanyAffiliations p)) = texts).
Proof.
  intros Hp.
  destruct (decide (PyNone ∈ aff_texts (authors_of article))) as [Hin|Hstr].
  { by rewrite (parse_article_none set_iter _ Hin) in Hp. }
  destruct (parse_article_str set_iter set_iter_elements _ Hstr)
    as (names & texts & email & HX & Hnil & Hparse).
  rewrite Hparse in Hp. exists names, texts, email. split; [done|].
  destruct names as [|n names]; [done|]. injection Hp as <-.
  destruct texts as [|t texts];
    [destruct Hnil as [_ Hnil]; by specialize (Hnil eq_refl)|].
  split_and!; [done..| |]; intros Hfree; cbn [record_of Non_academicAuthors
    CompanyAffiliations]; (split; [by apply split_join|by apply unpad_split_join]).
Qed.

End Parser_claims.

Lemma C3_record_iff_nonempty_witness :
  ∃ results contributions,
    parse_pubmed_xml elements (λ _, Ok document_example) (str "<PubmedArticleSet/>")
      = Ok results ∧
    results = concat contributions ∧
    Forall2 (λ article contribution,
        ∃ names affs email record,
          extract_authors_info elements (authors_of article)
            = Ok (names, affs, email) ∧
          parse_article elements article = Ok record ∧
          contribution = option_list record ∧
          (is_Some record ↔ names ≠ []) ∧
          (names = [] → contribution = []))
      (findall_below (str "PubmedArticle") document_example) contributions.
Proof.
  apply (C3_record_iff_nonempty elements elements_permutation
           (λ _, Ok document_example) (str "<PubmedArticleSet/>") document_example).
  - reflexivity.
  - apply Forall_forall. apply (bool_decide_unpack _). vm_compute. exact I.
Defined.

Example parse_document_example :
  Non_academicAuthors <$> default [] (match parse_pubmed_xml elements
                                              (λ _, Ok document_example) [] with
                                      | Ok results => Some results
                                      | Raise _ => None
                                      end)
  = [str "Doe John; Poe Eve"].
Proof. vm_compute. reflexivity. Qed.

Lemma C8_join_split_witness :
  ∃ names texts email,
    extract_authors_info elements (authors_of article_example)
      = Ok (names, PyStr <$> texts, email) ∧
    Non_academicAuthors record_example = join (str "; ") names ∧
    CompanyAffiliations record_example = join (str "; ") texts ∧
    ((∀ y, y ∈ names → ";"%char ∉ y) →
       split ";" (Non_academicAuthors record_example)
         = default [] (head names) :: ((" "%char ::.) <$> tail names) ∧
       unpad (split ";" (Non_academicAuthors record_example)) = names) ∧
    ((∀ y, y ∈ texts → ";"%char ∉ y) →
       split ";" (CompanyAffiliations record_example)
         = default [] (head texts) :: ((" "%char ::.) <$> tail texts) ∧
       unpad (split ";" (CompanyAffiliations record_example)) = texts).
Proof.
  apply (C8_join_split elements elements_permutation article_example record_example).
  vm_compute. reflexivity.
Defined.

(** C8 as stated fails on the record of the example article: splitting
    the joined names on [;] leaves the blank of the joiner in front of
    the second name. *)
Lemma C8_split_counterexample :
  parse_article elements article_example = Ok (Some record_example) ∧
  Non_academicAuthors record_example
    = join (str "; ") [str "Doe John"; str "Poe Eve"] ∧
  split ";" (Non_academicAuthors record_example)
    = [str "Doe John"; str " Poe Eve"] ∧
  split ";" (Non_academicAuthors record_example)
    ≠ [str "Doe John"; str "Poe Eve"].
Proof.
  split_and!; [vm_compute; reflexivity..|]. vm_compute. discriminate.
Qed.

(** ** A missing affiliation text *)

(** C4 at the failing input.  The parser stores [None] under the key
    ['Affiliation'], the default of [aff.get('Affiliation', '')] is not
    used, and the classifier raises on [None.lower()]: the extractor and
    the whole parse raise [AttributeError], and the run ends with the
    error line. *)
Theorem C4_missing_affiliation_raises
    (set_iter : gset pyval → list pyval) (xml_str : text) (out : sink) :
  (aff_texts <$> (authors_of <$>
     findall_below (str "PubmedArticle") document_missing_affiliation))
    = [[PyNone]] ∧
  is_company_affiliation PyNone = Raise AttributeError ∧
  extract_authors_info set_iter
    [ {| LastName := Some (PyStr (str "Doe"));
         ForeName := Some (PyStr (str "John"));
         AffiliationInfo := Some [ {| Affiliation := Some PyNone |} ] |} ]
    = Raise AttributeError ∧
  parse_pubmed_xml set_iter (λ _, Ok document_missing_affiliation) xml_str
    = Raise AttributeError ∧
  fetch_and_process_papers set_iter (λ _, Ok [str "21"]) (λ _, Ok xml_str)
    (λ _, Ok document_missing_affiliation) out (str "nothing") None false []
    = ([search_request (str "nothing");
        Request EFETCH [(str "db", str "pubmed"); (str "id", str "21");
                        (str "retmode", str "xml")];
        PrintedError AttributeError], Ok ()).
Proof. split_and!; reflexivity. Qed.

(** C1 at the failing input.  On strings the classifier answers as the
    claim says, and the empty text is classified false.  The absent text
    is another matter: for an [AffiliationInfo] element without an
    [Affiliation] child the parser hands [None] to the classifier, which
    does not classify it but raises [AttributeError], and the parse of the
    document raises with it. *)
Theorem C1_absent_text_raises (set_iter : gset pyval → list pyval) :
  (∀ s, ∃ b, is_company_affiliation (PyStr s) = Ok b ∧
      (b = true ↔
         mentions COMPANY_KEYWORDS s ∧ ¬ mentions ACADEMIC_KEYWORDS s)) ∧
  is_company_affiliation (PyStr []) = Ok false ∧
  (aff_texts <$> (authors_of <$>
     findall_below (str "PubmedArticle") document_missing_affiliation))
    = [[PyNone]] ∧
  is_company_affiliation PyNone = Raise AttributeError ∧
  is_company_affiliation PyNone ≠ Ok false ∧
  parse_root set_iter document_missing_affiliation = Raise AttributeError.
Proof.
  split_and!; [|reflexivity..|done|reflexivity].
  intros s. destruct (is_company_affiliation_total s) as [b Hb].
  exists b. split; [done|]. rewrite <- is_company_affiliation_true, Hb.
  split; [by intros ->|by intros [= ->]].
Qed.

(** Apart from that, nothing that is missing makes the loop body of the
    parser raise: it raises exactly when an affiliation text is [None]. *)
Lemma parse_article_outcome (set_iter : gset pyval → list pyval) article :
  (∀ X, set_iter X ≡ₚ elements X) →
  (PyNone ∈ aff_texts (authors_of article) ∧
     parse_article set_iter article = Raise AttributeError) ∨
  ((PyNone ∉ aff_texts (authors_of article)) ∧
     (∃ record, parse_article set_iter article = Ok record)).
Proof.
  intros Hset.
  destruct (decide (PyNone ∈ aff_texts (authors_of article))) as [Hin|Hstr].
  - left. split; [done|]. by apply parse_article_none.
  - right. split; [done|].
    destruct (parse_article_str set_iter Hset _ Hstr) as (? & ? & ? & _ & _ & ->).
    eauto.
Qed.

(** ** Display names *)

Lemma findtext_None t e : findall t e = [] → findtext t e = PyNone.
Proof. unfold findtext. by intros ->. Qed.

Lemma starts_clean_head s x :
  starts_clean s → (head (s ++ x) ≫= λ c, Some (is_space c)) = Some false.
Proof. intros (c & s' & -> & Hc). simpl. by rewrite Hc. Qed.

Lemma ends_clean_last x s :
  ends_clean s → (last (x ++ s) ≫= λ c, Some (is_space c)) = Some false.
Proof.
  intros (s' & c & -> & Hc). rewrite (assoc_L (++)), last_snoc. simpl.
  by rewrite Hc.
Qed.

Lemma starts_clean_head_self s :
  starts_clean s → (head s ≫= λ c, Some (is_space c)) = Some false.
Proof. intros Hs. rewrite <- (right_id_L [] (++) s). by apply starts_clean_head. Qed.

Lemma ends_clean_last_self s :
  ends_clean s → (last s ≫= λ c, Some (is_space c)) = Some false.
Proof. intros Hs. by apply (ends_clean_last []). Qed.

Lemma starts_clean_None : starts_clean (str "None").
Proof. by exists "N"%char, (str "one"). Qed.

Lemma ends_clean_None : ends_clean (str "None").
Proof. by exists (str "Non"), "e"%char. Qed.

Lemma strip_clean s : starts_clean s → ends_clean s → strip s = s.
Proof.
  intros Hs He. unfold strip.
  rewrite <- (strip_of_core is_space [] s []) at 2; try done.
  - by rewrite (right_id_L [] (++)).
  - by rewrite starts_clean_head_self.
  - by rewrite ends_clean_last_self.
Qed.

Lemma named_affiliations_single author :
  named_affiliations [author] =
    (λ aff, (display_name author, aff_text_of aff)) <$> affiliations_of author.
Proof. unfold named_affiliations. rewrite bind_cons. apply (right_id_L [] (++)). Qed.

Lemma qualifying_names_single author :
  qualifying_names [author] =
    replicate (length (qualifying_texts [author])) (display_name author).
Proof.
  unfold qualifying_names, qualifying_texts, aff_texts.
  rewrite named_affiliations_single.
  induction (affiliations_of author) as [|aff l IH]; [done|].
  rewrite !fmap_cons. cbn [snd].
  destruct (qualifies (aff_text_of aff)) eqn:Hq.
  - rewrite !filter_cons_True by done. rewrite fmap_cons. simpl. by rewrite IH.
  - rewrite !filter_cons_False by (cbn [snd]; congruence). done.
Qed.

(** C10. The dictionary the parser builds for an [Author] element
    holds [None] for a missing [LastName] or [ForeName], and the display
    name spells it out: without a [ForeName] the name ends in the text
    [None] (["Smith None"] for the last name [Smith]), without a
    [LastName] it begins with it.  With both parts present the name is the
    last name, a blank and the fore name, stripped; that is the three
    together when the last name begins and the fore name ends with a
    character that is not white space.  This name is what the extractor
    appends, once for each company affiliation of the author. *)
Theorem C10_display_name_none author :
  let data := author_data_of author in
  let last_name := findtext (str "LastName") author in
  let fore_name := findtext (str "ForeName") author in
  (findall (str "ForeName") author = [] →
     display_name data
       = lstrip_of is_space (format last_name ++ str " ") ++ str "None") ∧
  (findall (str "LastName") author = [] →
     display_name data
       = str "None" ++ rstrip_of is_space (str " " ++ format fore_name)) ∧
  (∀ l, last_name = PyStr l → findall (str "ForeName") author = [] →
     starts_clean l → display_name data = l ++ str " None") ∧
  (∀ l f, last_name = PyStr l → fore_name = PyStr f →
     display_name data = strip (l ++ str " " ++ f) ∧
     (starts_clean l → ends_clean f → display_name data = l ++ str " " ++ f)) ∧
  (∀ set_iter names affs email,
     extract_authors_info set_iter [data] = Ok (names, affs, email) →
     names = replicate (length (qualifying_texts [data])) (display_name data)).
Proof.
  intros data last_name fore_name.
  assert (Hname : display_name data
                  = strip (format last_name ++ str " " ++ format fore_name))
    by reflexivity.
  assert (Hfore : findall (str "ForeName") author = [] →
    display_name data
      = lstrip_of is_space (format last_name ++ str " ") ++ str "None").
  { intros Habs. rewrite Hname. unfold fore_name. rewrite (findtext_None _ _ Habs).
    cbn [format]. rewrite (assoc_L (++)). apply strip_of_suffix.
    - apply starts_clean_head_self, starts_clean_None.
    - apply ends_clean_last_self, ends_clean_None. }
  split_and!.
  - done.
  - intros Habs. rewrite Hname. unfold last_name. rewrite (findtext_None _ _ Habs).
    cbn [format]. apply strip_of_prefix.
    + apply starts_clean_head_self, starts_clean_None.
    + apply ends_clean_last_self, ends_clean_None.
  - intros l Hl Habs Hclean. rewrite (Hfore Habs), Hl. cbn [format].
    rewrite lstrip_of_keep; [by rewrite <- (assoc_L (++))|].
    by rewrite starts_clean_head.
  - intros l f Hl Hf. rewrite Hname, Hl, Hf. cbn [format]. split; [done|].
    intros Hs He. apply strip_clean.
    + destruct Hs as (c & l' & -> & Hc). by eexists _, _.
    + destruct He as (f' & c & -> & Hc). exists (l ++ str " " ++ f'), c.
      by rewrite <- !(assoc_L (++)).
  - intros set_iter names affs email HX.
    destruct (decide (PyNone ∈ aff_texts [data])) as [Hin|Hstr].
    { by rewrite (extract_authors_info_none set_iter _ Hin) in HX. }
    destruct (extract_authors_info_str set_iter _ Hstr) as (X & HX' & _).
    rewrite HX in HX'. injection HX' as -> _ _. apply qualifying_names_single.
Qed.

Lemma C10_display_name_none_witness :
  display_name (author_data_of author_without_forename) = str "Smith None" ∧
  ∀ names affs email,
    extract_authors_info elements [author_data_of author_without_forename]
      = Ok (names, affs, email) →
    names = replicate
              (length (qualifying_texts [author_data_of author_without_forename]))
              (display_name (author_data_of author_without_forename)).
Proof.
  split.
  - apply (proj1 (proj2 (proj2 (C10_display_name_none author_without_forename)))
             (str "Smith")); [reflexivity..|].
    by exists "S"%char, (str "mith").
  - apply (proj2 (proj2 (proj2 (proj2
             (C10_display_name_none author_without_forename))))).
Defined.

Example names_without_forename :
  match extract_authors_info elements [author_data_of author_without_forename] with
  | Ok (names, _, _) => names
  | Raise _ => []
  end = [str "Smith None"].
Proof. vm_compute. reflexivity. Qed.

(** ** The pipeline on an empty id list *)

Section Pipeline_claims.

Variable set_iter : gset pyval → list pyval.
Variable esearch : text → result (list text).
Variable efetch : list text → result text.
Variable fromstring : text → result Element.
Variable out : sink.

(** C9. When the search answers with an empty id list, the run only
    sends the search request, prints the debug line if asked to, and
    prints "No papers found.": it ends without an exception, reports no
    error, hands no record to the console or to a file, sends no request
    for the citation document, and does not depend on the fetch service,
    on the parser or on the sink in any way. *)
Theorem C9_empty_id_list query output_file debug trace :
  esearch query = Ok [] →
  ∃ events,
    fetch_and_process_papers set_iter esearch efetch fromstring out
      query output_file debug trace = (trace ++ events, Ok ()) ∧
    events = search_request query
             :: (if debug then [PrintedDebug (str "PubMed ID Fetch Response:")]
                 else [])
             ++ [Printed (str "No papers found.")] ∧
    Forall (λ ev, is_retrieval ev = false ∧ is_record_output ev = false
                  ∧ is_error ev = false) events ∧
    ∀ set_iter' efetch' fromstring' out',
      fetch_and_process_papers set_iter' esearch efetch' fromstring' out'
        query output_file debug trace = (trace ++ events, Ok ()).
Proof.
  intros Hids. eexists. split_and!; [|reflexivity| |].
  - unfold fetch_and_process_papers, try_except, fetch_pubmed_ids.
    unfold mbind, io_bind, emit, lift, when. rewrite Hids.
    destruct debug; simpl; by rewrite <- !(assoc_L (++)).
  - destruct debug; repeat constructor.
  - intros set_iter' efetch' fromstring' out'.
    unfold fetch_and_process_papers, try_except, fetch_pubmed_ids.
    unfold mbind, io_bind, emit, lift, when. rewrite Hids.
    destruct debug; simpl; by rewrite <- !(assoc_L (++)).
Qed.

End Pipeline_claims.

Lemma C9_empty_id_list_witness :
  ∃ events,
    fetch_and_process_papers elements (λ _, Ok []) (λ _, Raise RequestError)
      (λ _, Raise ParseError) sink_failing
      (str "no such thing") (Some (str "out.csv")) false []
      = ([] ++ events, Ok ()) ∧
    events = search_request (str "no such thing")
             :: [] ++ [Printed (str "No papers found.")] ∧
    Forall (λ ev, is_retrieval ev = false ∧ is_record_output ev = false
                  ∧ is_error ev = false) events ∧
    ∀ set_iter' efetch' fromstring' out',
      fetch_and_process_papers set_iter' (λ _, Ok []) efetch' fromstring' out'
        (str "no such thing") (Some (str "out.csv")) false []
        = ([] ++ events, Ok ()).
Proof.
  apply (C9_empty_id_list elements (λ _, Ok []) (λ _, Raise RequestError)
           (λ _, Raise ParseError) sink_failing (str "no such thing")
           (Some (str "out.csv")) false []).
  reflexivity.
Defined.

(** With a non-empty id list the document is requested, and a failure of
    the fetch service is reported as an error. *)
Example run_with_failing_fetch :
  fetch_and_process_papers elements (λ _, Ok [str "11"]) (λ _, Raise RequestError)
    (λ _, Raise ParseError) sink_ok (str "things") None false []
  = ([search_request (str "things");
      Request EFETCH [(str "db", str "pubmed"); (str "id", str "11");
                      (str "retmode", str "xml")];
      PrintedError RequestError], Ok ()).
Proof. reflexivity. Qed.

(** * Further properties of the module *)

Import Notions.

(** ** The extractor *)

Lemma extract_authors_info_Ok_str set_iter authors r :
  extract_authors_info set_iter authors = Ok r → PyNone ∉ aff_texts authors.
Proof.
  intros HX Hin. by rewrite (extract_authors_info_none set_iter _ Hin) in HX.
Qed.

Lemma elem_of_named_affiliations authors n v :
  (n, v) ∈ named_affiliations authors ↔
    ∃ author aff, author ∈ authors ∧ aff ∈ affiliations_of author ∧
      n = display_name author ∧ v = aff_text_of aff.
Proof.
  unfold named_affiliations. rewrite list_elem_of_bind. split.
  - intros (author & (aff & Heq & Haff)%list_elem_of_fmap & Hauthor).
    injection Heq as -> ->. eauto 8.
  - intros (author & aff & Hauthor & Haff & -> & ->). exists author.
    split; [|done]. apply list_elem_of_fmap. eauto.
Qed.

Lemma named_affiliations_app authors1 authors2 :
  named_affiliations (authors1 ++ authors2)
    = named_affiliations authors1 ++ named_affiliations authors2.
Proof. unfold named_affiliations. apply bind_app. Qed.

Lemma first_email_app texts1 texts2 :
  first_email (texts1 ++ texts2)
    = match first_email texts1 with
      | Some e => Some e
      | None => first_email texts2
      end.
Proof.
  induction texts1 as [|t texts1 IH]; simpl; [done|].
  by destruct (search EMAIL t).
Qed.

Lemma strings_app l1 l2 : strings (l1 ++ l2) = strings l1 ++ strings l2.
Proof. unfold strings. apply omap_app. Qed.

Lemma aff_texts_app authors1 authors2 :
  aff_texts (authors1 ++ authors2) = aff_texts authors1 ++ aff_texts authors2.
Proof. unfold aff_texts. by rewrite named_affiliations_app, fmap_app. Qed.

Lemma qualifying_texts_app authors1 authors2 :
  qualifying_texts (authors1 ++ authors2)
    = qualifying_texts authors1 ++ qualifying_texts authors2.
Proof. unfold qualifying_texts. by rewrite aff_texts_app, filter_app. Qed.

Lemma qualifying_names_app authors1 authors2 :
  qualifying_names (authors1 ++ authors2)
    = qualifying_names authors1 ++ qualifying_names authors2.
Proof.
  unfold qualifying_names. by rewrite named_affiliations_app, filter_app, fmap_app.
Qed.

Lemma qualifying_names_length authors :
  length (qualifying_names authors) = length (qualifying_texts authors).
Proof.
  rewrite qualifying_texts_named. unfold qualifying_names. by rewrite !length_fmap.
Qed.

Lemma qualifying_names_cons author authors :
  qualifying_names (author :: authors)
    = replicate (company_count author) (display_name author)
      ++ qualifying_names authors.
Proof.
  change (author :: authors) with ([author] ++ authors).
  rewrite qualifying_names_app, qualifying_names_single. do 2 f_equal.
  unfold company_count, qualifying_texts, aff_texts.
  rewrite named_affiliations_single, <- list_fmap_compose. done.
Qed.

Lemma qualifying_names_bind authors :
  qualifying_names authors
    = authors ≫= λ author, replicate (company_count author) (display_name author).
Proof.
  induction authors as [|author authors IH]; [done|].
  by rewrite qualifying_names_cons, bind_cons, IH.
Qed.

(** X1. On an author list whose affiliation texts are strings, the list
    of names is made author by author, in the order of the authors: each
    author contributes the display name once for every company-classified
    affiliation, so twice with two of them and not at all with none.
    Hence the list has one entry for every company-classified
    affiliation, and a name is in it exactly when it is the display name
    of an author who has one. *)
Theorem X1_names_per_affiliation set_iter authors :
  PyNone ∉ aff_texts authors →
  ∃ names affs email,
    extract_authors_info set_iter authors = Ok (names, affs, email) ∧
    names = (authors ≫= λ author,
               replicate (company_count author) (display_name author)) ∧
    length names = length (qualifying_texts authors) ∧
    ∀ n, n ∈ names ↔
      ∃ author aff, author ∈ authors ∧ aff ∈ affiliations_of author ∧
        qualifies (aff_text_of aff) = true ∧ n = display_name author.
Proof.
  intros Hstr. destruct (extract_authors_info_str set_iter _ Hstr) as (X & HX & _).
  eexists _, _, _. split; [exact HX|]. split; [apply qualifying_names_bind|]. split.
  - rewrite qualifying_texts_named. unfold qualifying_names.
    by rewrite !length_fmap.
  - intros n. unfold qualifying_names. rewrite list_elem_of_fmap. split.
    + intros ([n' v] & -> & [Hq Hin]%list_elem_of_filter).
      apply elem_of_named_affiliations in Hin
        as (author & aff & Hauthor & Haff & -> & ->).
      exists author, aff. done.
    + intros (author & aff & Hauthor & Haff & Hq & ->).
      exists (display_name author, aff_text_of aff). split; [done|].
      apply list_elem_of_filter. split; [done|].
      apply elem_of_named_affiliations. eauto 8.
Qed.

Lemma X1_names_per_affiliation_witness :
  ∃ names affs email,
    extract_authors_info elements authors_example = Ok (names, affs, email) ∧
    names = (authors_example ≫= λ author,
               replicate (company_count author) (display_name author)) ∧
    length names = length (qualifying_texts authors_example) ∧
    ∀ n, n ∈ names ↔
      ∃ author aff, author ∈ authors_example ∧ aff ∈ affiliations_of author ∧
        qualifies (aff_text_of aff) = true ∧ n = display_name author.
Proof.
  apply (X1_names_per_affiliation elements authors_example).
  apply (bool_decide_unpack _). vm_compute. exact I.
Defined.

(** The second author of the example has two company affiliations and is
    named twice. *)
Example names_of_authors_example :
  (authors_example ≫= λ author,
     replicate (company_count author) (display_name author))
  = [str "Doe John"; str "Doe John"; str "Poe Eve"].
Proof. vm_compute. reflexivity. Qed.

(** X2. The extractor raises exactly when the text of some affiliation
    is [None]; the exception is then [AttributeError], and no other
    exception ever leaves it. *)
Theorem X2_extractor_raises set_iter authors :
  (extract_authors_info set_iter authors = Raise AttributeError ↔
     PyNone ∈ aff_texts authors) ∧
  (∀ e, extract_authors_info set_iter authors = Raise e → e = AttributeError) ∧
  ((∃ r, extract_authors_info set_iter authors = Ok r) ↔
     PyNone ∉ aff_texts authors).
Proof.
  destruct (decide (PyNone ∈ aff_texts authors)) as [Hin|Hstr].
  - rewrite (extract_authors_info_none set_iter _ Hin). split_and!.
    + done.
    + by intros e [= <-].
    + split; [by intros [r ?]|done].
  - destruct (extract_authors_info_str set_iter _ Hstr) as (X & -> & _).
    split_and!.
    + done.
    + done.
    + split; [done|eauto].
Qed.

Section Extractor_further.

Variable set_iter : gset pyval → list pyval.
Hypothesis set_iter_elements : ∀ X, set_iter X ≡ₚ elements X.

(** The three results of the extractor at once, on texts that are
    strings. *)
Lemma extract_authors_info_results authors :
  PyNone ∉ aff_texts authors →
  ∃ affs,
    extract_authors_info set_iter authors
      = Ok (qualifying_names authors, affs,
            first_email (strings (aff_texts authors))) ∧
    NoDup affs ∧ ∀ v, v ∈ affs ↔ v ∈ qualifying_texts authors.
Proof.
  intros Hstr. destruct (extract_authors_info_str set_iter _ Hstr) as (X & HX & Hin).
  exists (set_iter X). split; [done|]. split.
  - rewrite set_iter_elements. apply NoDup_elements.
  - intros v. by rewrite set_iter_elements, elem_of_elements.
Qed.

(** X3. The two lists of the extractor are empty together, and there
    are never more company affiliations than names. *)
Theorem X3_names_and_affiliations authors :
  PyNone ∉ aff_texts authors →
  ∃ names affs email,
    extract_authors_info set_iter authors = Ok (names, affs, email) ∧
    (names = [] ↔ affs = []) ∧
    length affs ≤ length names.
Proof.
  intros Hstr. destruct (extract_authors_info_results _ Hstr) as (affs & HX & Hnd & Hin).
  eexists _, _, _. split; [exact HX|]. split.
  - rewrite qualifying_names_nil. split.
    + intros Hnil. destruct affs as [|v affs]; [done|].
      assert (v ∈ qualifying_texts authors) as Hv by (apply Hin; left).
      rewrite Hnil in Hv. by apply elem_of_nil in Hv.
    + intros ->. destruct (qualifying_texts authors) as [|v l]; [done|].
      assert (v ∈ @nil pyval) as Hv by (apply Hin; left).
      by apply elem_of_nil in Hv.
  - rewrite qualifying_names_length. apply submseteq_length, NoDup_submseteq; [done|].
    intros v. apply Hin.
Qed.

(** X4. Running the extractor on two author lists put one after the
    other: the names are those of the first list followed by those of the
    second, the email is that of the first list if it has one and that of
    the second otherwise, and the company affiliations are those of
    either list. *)
Theorem X4_extractor_append authors1 authors2 :
  PyNone ∉ aff_texts (authors1 ++ authors2) →
  ∃ names1 affs1 email1 names2 affs2 email2 affs,
    extract_authors_info set_iter authors1 = Ok (names1, affs1, email1) ∧
    extract_authors_info set_iter authors2 = Ok (names2, affs2, email2) ∧
    extract_authors_info set_iter (authors1 ++ authors2)
      = Ok (names1 ++ names2, affs,
            match email1 with Some e => Some e | None => email2 end) ∧
    ∀ v, v ∈ affs ↔ v ∈ affs1 ∨ v ∈ affs2.
Proof.
  intros Hstr. pose proof Hstr as Hboth.
  rewrite aff_texts_app, not_elem_of_app in Hboth. destruct Hboth as [H1 H2].
  destruct (extract_authors_info_results _ H1) as (affs1 & HX1 & _ & Hin1).
  destruct (extract_authors_info_results _ H2) as (affs2 & HX2 & _ & Hin2).
  destruct (extract_authors_info_results _ Hstr) as (affs & HX & _ & Hin).
  eexists _, affs1, _, _, affs2, _, affs. split_and!; [exact HX1|exact HX2| |].
  - by rewrite HX, qualifying_names_app, aff_texts_app, strings_app, first_email_app.
  - intros v. by rewrite Hin, Hin1, Hin2, qualifying_texts_app, elem_of_app.
Qed.

End Extractor_further.

Lemma X3_names_and_affiliations_witness :
  ∃ names affs email,
    extract_authors_info elements authors_example = Ok (names, affs, email) ∧
    (names = [] ↔ affs = []) ∧
    length affs ≤ length names.
Proof.
  apply (X3_names_and_affiliations elements elements_permutation authors_example).
  apply (bool_decide_unpack _). vm_compute. exact I.
Defined.

Lemma X4_extractor_append_witness :
  ∃ names1 affs1 email1 names2 affs2 email2 affs,
    extract_authors_info elements (take 1 authors_example)
      = Ok (names1, affs1, email1) ∧
    extract_authors_info elements (drop 1 authors_example)
      = Ok (names2, affs2, email2) ∧
    extract_authors_info elements (take 1 authors_example ++ drop 1 authors_example)
      = Ok (names1 ++ names2, affs,
            match email1 with Some e => Some e | None => email2 end) ∧
    ∀ v, v ∈ affs ↔ v ∈ affs1 ∨ v ∈ affs2.
Proof.
  apply (X4_extractor_append elements elements_permutation
           (take 1 authors_example) (drop 1 authors_example)).
  apply (bool_decide_unpack _). vm_compute. exact I.
Defined.

(** X5. The extractor looks at nothing but the sequence of affiliation
    texts, each with the display name of its author: two author lists
    with the same sequence give the same result.  In particular authors
    without affiliations, or without the key, change nothing. *)
Theorem X5_only_affiliations_matter set_iter authors authors' :
  named_affiliations authors = named_affiliations authors' →
  extract_authors_info set_iter authors = extract_authors_info set_iter authors'.
Proof.
  intros Heq. unfold extract_authors_info.
  by rewrite !for_each_scan_author, Heq.
Qed.

Lemma X5_only_affiliations_matter_witness :
  extract_authors_info elements authors_example_padded
    = extract_authors_info elements authors_example.
Proof.
  apply (X5_only_affiliations_matter elements authors_example_padded authors_example).
  vm_compute. reflexivity.
Defined.

(** ** The shape of the corresponding email *)

Lemma class_not_space c :
  local_char c || domain_char c || alpha c = true → is_space c = false.
Proof.
  destruct c as [[] [] [] [] [] [] [] []]; vm_compute; congruence.
Qed.

Lemma class_filter_at (cls : ascii → bool) l :
  cls "@"%char = false → forallb cls l = true →
  filter (λ c, c = "@"%char) l = [].
Proof.
  intros Hat. induction l as [|c l IH]; simpl; [done|].
  intros [Hc Hl]%andb_true_iff. rewrite filter_cons_False; [by apply IH|].
  intros ->. congruence.
Qed.

Lemma class_Forall_not_space (cls : ascii → bool) l :
  (∀ c, cls c = true → is_space c = false) → forallb cls l = true →
  Forall (λ c, is_space c = false) l.
Proof.
  intros Hcls. induction l as [|c l IH]; simpl; [constructor|].
  intros [Hc Hl]%andb_true_iff. constructor; auto.
Qed.

Lemma last_two (l : text) :
  2 ≤ length l → ∃ body a b, l = body ++ [a; b].
Proof.
  destruct l as [|b l _] using rev_ind; [simpl; lia|].
  destruct l as [|a l _] using rev_ind; [simpl; lia|].
  intros _. exists l, a, b. by rewrite <- (assoc_L (++)).
Qed.

(** X6. A corresponding email the extractor returns is a piece of one of
    the affiliation texts, has exactly one [@], has no white space in it
    and ends in two letters. *)
Theorem X6_email_shape set_iter authors names affs e :
  extract_authors_info set_iter authors = Ok (names, affs, Some e) →
  (∃ t, PyStr t ∈ aff_texts authors ∧ substring e t) ∧
  length (filter (λ c, c = "@"%char) e) = 1 ∧
  Forall (λ c, is_space c = false) e ∧
  ∃ body a b, e = body ++ [a; b] ∧ alpha a = true ∧ alpha b = true.
Proof.
  intros HX. pose proof (extract_authors_info_Ok_str _ _ _ HX) as Hstr.
  destruct (extract_authors_info_str set_iter _ Hstr) as (X & HX' & _).
  rewrite HX in HX'. injection HX' as _ _ He. symmetry in He.
  apply first_email_Some in He
    as (before & t & after & Ht & _ & pre & post & -> & Hl & _).
  split.
  { exists (pre ++ e ++ post). split; [|by exists pre, post].
    assert (pre ++ e ++ post ∈ strings (aff_texts authors)) as Hin
      by (rewrite Ht; apply elem_of_app; right; left).
    apply list_elem_of_omap in Hin as ([|s] & Hs & Heq); [done|].
    by injection Heq as ->. }
  apply email_shaped_iff in Hl
    as (loc & dom & tld & -> & Hloc & Hn1 & Hdom & Hn2 & Htld & Hn3).
  split_and!.
  - rewrite filter_app, filter_cons_True, filter_app, filter_cons_False by done.
    rewrite (class_filter_at local_char), (class_filter_at domain_char),
      (class_filter_at alpha) by done. done.
  - apply Forall_app. split.
    { apply (class_Forall_not_space local_char); [|done].
      intros c Hc. apply class_not_space. by rewrite Hc. }
    constructor; [done|]. apply Forall_app. split.
    { apply (class_Forall_not_space domain_char); [|done].
      intros c Hc. apply class_not_space. rewrite Hc. by rewrite orb_true_r. }
    constructor; [done|].
    apply (class_Forall_not_space alpha); [|done].
    intros c Hc. apply class_not_space. rewrite Hc. by rewrite orb_true_r.
  - destruct (last_two tld Hn3) as (body & a & b & ->).
    exists (loc ++ "@"%char :: dom ++ "."%char :: body), a, b.
    rewrite forallb_app in Htld. apply andb_true_iff in Htld as [_ Hab].
    simpl in Hab. rewrite andb_true_r in Hab.
    apply andb_true_iff in Hab as [Ha Hb]. split_and!; [|done..].
    rewrite <- (assoc_L (++) loc). simpl. by rewrite <- (assoc_L (++) dom).
Qed.

Lemma X6_email_shape_witness :
  (∃ t, PyStr t ∈ aff_texts authors_example ∧ substring (str "j@acme.com") t) ∧
  length (filter (λ c, c = "@"%char) (str "j@acme.com")) = 1 ∧
  Forall (λ c, is_space c = false) (str "j@acme.com") ∧
  ∃ body a b, str "j@acme.com" = body ++ [a; b] ∧ alpha a = true ∧ alpha b = true.
Proof.
  apply (X6_email_shape elements authors_example
           [str "Doe John"; str "Doe John"; str "Poe Eve"]
           [PyStr (str "Acme Biotech Ltd, j@acme.com"); PyStr (str "XYZ Pharma Inc")]
           (str "j@acme.com")).
  vm_compute. reflexivity.
Defined.

(** ** What stripping leaves *)

Lemma lstrip_of_head p s c : head (lstrip_of p s) = Some c → p c = false.
Proof.
  induction s as [|a s IH]; simpl; [done|].
  destruct (p a) eqn:Ha; [done|]. simpl. by intros [= <-].
Qed.

Lemma lstrip_of_suffix p s : ∃ pre, s = pre ++ lstrip_of p s.
Proof.
  induction s as [|a s [pre IH]]; simpl; [by exists []|].
  destruct (p a); [|by exists []]. exists (a :: pre). simpl. by f_equal.
Qed.

Lemma rstrip_of_prefix p s : ∃ post, s = rstrip_of p s ++ post.
Proof.
  unfold rstrip_of. destruct (lstrip_of_suffix p (reverse s)) as [pre Hpre].
  exists (reverse pre). rewrite <- reverse_app, <- Hpre.
  by rewrite reverse_involutive.
Qed.

Lemma rstrip_of_last p s c : last (rstrip_of p s) = Some c → p c = false.
Proof. unfold rstrip_of. rewrite last_reverse. apply lstrip_of_head. Qed.

Lemma strip_of_head p s c : head (strip_of p s) = Some c → p c = false.
Proof.
  unfold strip_of. destruct (rstrip_of_prefix p (lstrip_of p s)) as [post Hpost].
  intros Hhead. apply (lstrip_of_head p s). rewrite Hpost.
  destruct (rstrip_of p (lstrip_of p s)); [done|]. done.
Qed.

Lemma strip_of_last p s c : last (strip_of p s) = Some c → p c = false.
Proof. apply rstrip_of_last. Qed.

Lemma strip_of_idemp p s : strip_of p (strip_of p s) = strip_of p s.
Proof.
  rewrite <- (strip_of_core p [] (strip_of p s) []) at 2; try done.
  - by rewrite (right_id_L [] (++)).
  - destruct (head (strip_of p s)) as [c|] eqn:Hc; [|done]. simpl.
    by rewrite (strip_of_head _ _ _ Hc).
  - destruct (last (strip_of p s)) as [c|] eqn:Hc; [|done]. simpl.
    by rewrite (strip_of_last _ _ _ Hc).
Qed.

(** X8. The publication date of an article never begins or ends with a
    hyphen, and it is empty when the [PubDate] element has neither a
    [Year] nor a [Month] nor a [Day] child. *)
Theorem X8_date_without_outer_hyphens article :
  head (pub_date_of article) ≠ Some "-"%char ∧
  last (pub_date_of article) ≠ Some "-"%char ∧
  ∀ pub_date_el,
    find_below (str "PubDate") article = Some pub_date_el →
    findall (str "Year") pub_date_el = [] →
    findall (str "Month") pub_date_el = [] →
    findall (str "Day") pub_date_el = [] →
    pub_date_of article = [].
Proof.
  unfold pub_date_of. split_and!.
  - destruct (find_below _ article); [|done]. unfold format_date, strip_dash.
    intros Hc%strip_of_head. done.
  - destruct (find_below _ article); [|done]. unfold format_date, strip_dash.
    intros Hc%strip_of_last. done.
  - intros el -> Hy Hm Hd.
    by rewrite (findtext_None _ _ Hy), (findtext_None _ _ Hm), (findtext_None _ _ Hd).
Qed.

Lemma X8_date_without_outer_hyphens_witness :
  pub_date_of (node "PubmedArticle" [ node "PubDate" [ leaf "Season" "Spring" ] ]) = [].
Proof.
  apply (proj2 (proj2 (X8_date_without_outer_hyphens
    (node "PubmedArticle" [ node "PubDate" [ leaf "Season" "Spring" ] ])))
    (node "PubDate" [ leaf "Season" "Spring" ])); reflexivity.
Defined.

(** X9. The display name of an author never begins or ends with white
    space, whatever the dictionary holds, and stripping it again changes
    nothing. *)
Theorem X9_display_name_stripped author :
  (∀ c, head (display_name author) = Some c → is_space c = false) ∧
  (∀ c, last (display_name author) = Some c → is_space c = false) ∧
  strip (display_name author) = display_name author.
Proof.
  unfold display_name, strip. split_and!.
  - intros c. apply strip_of_head.
  - intros c. apply strip_of_last.
  - apply strip_of_idemp.
Qed.

Lemma X9_display_name_stripped_witness :
  is_space "D"%char = false.
Proof.
  apply (proj1 (X9_display_name_stripped
    {| LastName := Some (PyStr (str "  Doe")); ForeName := Some (PyStr (str "John "));
       AffiliationInfo := None |}) "D"%char).
  reflexivity.
Defined.

(** ** The fields of a record *)

Lemma first_email_shaped texts e : first_email texts = Some e → email_shaped e.
Proof.
  intros (_ & t & _ & _ & _ & pre & post & _ & Hl & _)%first_email_Some. done.
Qed.

Lemma email_shaped_at e : email_shaped e → "@"%char ∈ e.
Proof.
  intros (loc & dom & tld & -> & _)%email_shaped_iff.
  apply elem_of_app. right. left.
Qed.

(** X7. The email column of a record is the email the extractor found,
    and the text [N/A] when it found none; the two cannot be confused,
    as an email is never the text [N/A]. *)
Theorem X7_email_column set_iter article p :
  parse_article set_iter article = Ok (Some p) →
  ∃ names affs email,
    extract_authors_info set_iter (authors_of article) = Ok (names, affs, email) ∧
    Corresponding_Author_Email p = default (str "N/A") email ∧
    (Corresponding_Author_Email p = str "N/A" ↔ email = None).
Proof.
  unfold parse_article.
  destruct (extract_authors_info set_iter (authors_of article))
    as [[[names affs] email]|e] eqn:HX; [|done].
  cbn [mbind result_bind]. destruct names as [|n names]; [done|].
  destruct (py_join (str "; ") affs) as [joined|e]; [|done].
  cbn [mbind result_bind mret result_ret].
  intros [= <-]. exists (n :: names), affs, email. split; [done|].
  cbn [Corresponding_Author_Email]. unfold or_na.
  pose proof (extract_authors_info_Ok_str _ _ _ HX) as Hstr.
  destruct (extract_authors_info_str set_iter _ Hstr) as (X & HX' & _).
  rewrite HX in HX'. injection HX' as _ _ He.
  destruct email as [e|]; [|done].
  symmetry in He. apply first_email_shaped in He.
  pose proof (email_shaped_nonempty _ He) as Hne.
  pose proof (email_shaped_at _ He) as Hat.
  destruct e as [|c e]; [done|]. cbn [truthy default]. split; [done|].
  split; [|done].
  intros Heq. change (c :: e = str "N/A") in Heq.
  rewrite Heq in Hat. exfalso. revert Hat.
  apply (bool_decide_unpack _). vm_compute. exact I.
Qed.

Lemma X7_email_column_witness :
  ∃ names affs email,
    extract_authors_info elements (authors_of article_example)
      = Ok (names, affs, email) ∧
    Corresponding_Author_Email record_example = default (str "N/A") email ∧
    (Corresponding_Author_Email record_example = str "N/A" ↔ email = None).
Proof.
  apply (X7_email_column elements article_example record_example).
  vm_compute. reflexivity.
Defined.

Lemma lower_app s1 s2 : lower (s1 ++ s2) = lower s1 ++ lower s2.
Proof. unfold lower. apply map_app. Qed.

Lemma substring_lower a b : substring a b → substring (lower a) (lower b).
Proof.
  intros (u & v & ->). exists (lower u), (lower v). by rewrite !lower_app.
Qed.

Lemma substring_trans a b c : substring a b → substring b c → substring a c.
Proof.
  intros (u & v & ->) (u' & v' & ->). exists (u' ++ u), (v ++ v').
  by rewrite <- !(assoc_L (++)).
Qed.

Lemma substring_join sep x l : x ∈ l → substring x (join sep l).
Proof.
  induction l as [|y l IH]; [by intros ?%elem_of_nil|].
  intros [->|Hin]%elem_of_cons.
  - destruct l as [|z l]; simpl.
    + exists [], []. by rewrite (right_id_L [] (++)).
    + by exists [], (sep ++ join sep (z :: l)).
  - destruct (IH Hin) as (u & v & Huv). destruct l as [|z l].
    + by apply elem_of_nil in Hin.
    + change (join sep (y :: z :: l)) with (y ++ sep ++ join sep (z :: l)).
      rewrite Huv. exists (y ++ sep ++ u), v. by rewrite <- !(assoc_L (++)).
Qed.

Lemma company_keyword_nonempty word : word ∈ COMPANY_KEYWORDS → word ≠ [].
Proof. intros Hin ->. revert Hin. by apply (bool_decide_eq_false_1 _). Qed.

Lemma qualifies_mentions s :
  qualifies (PyStr s) = true → mentions COMPANY_KEYWORDS s.
Proof.
  unfold qualifies. destruct (is_company_affiliation (PyStr s)) as [[]|] eqn:Hc;
    [|done..].
  intros _. by apply is_company_affiliation_true in Hc as [? _].
Qed.

Section Parser_further.

Variable set_iter : gset pyval → list pyval.
Hypothesis set_iter_elements : ∀ X, set_iter X ≡ₚ elements X.

(** X10. The company column of every record the parser builds is not
    empty: its lower-cased text contains a company keyword. *)
Theorem X10_company_column article p :
  parse_article set_iter article = Ok (Some p) →
  mentions COMPANY_KEYWORDS (CompanyAffiliations p) ∧
  CompanyAffiliations p ≠ [].
Proof.
  intros Hp.
  destruct (decide (PyNone ∈ aff_texts (authors_of article))) as [Hin|Hstr].
  { by rewrite (parse_article_none set_iter _ Hin) in Hp. }
  destruct (parse_article_str set_iter set_iter_elements _ Hstr)
    as (names & texts & email & HX & Hnil & Hparse).
  destruct (extract_authors_info_results set_iter set_iter_elements _ Hstr)
    as (affs & HX' & _ & Hin).
  rewrite HX in HX'. injection HX' as _ Haffs _.
  rewrite Hparse in Hp. destruct names as [|n names]; [done|]. injection Hp as <-.
  destruct texts as [|t texts];
    [destruct Hnil as [_ Hnil]; by specialize (Hnil eq_refl)|].
  assert (Hm : mentions COMPANY_KEYWORDS
                 (join (str "; ") (t :: texts))).
  { assert (PyStr t ∈ qualifying_texts (authors_of article)) as Ht.
    { apply Hin. rewrite <- Haffs. left. }
    apply list_elem_of_filter in Ht as [Hq _].
    destruct (qualifies_mentions _ Hq) as (word & Hword & Hsub).
    exists word. split; [done|]. apply (substring_trans _ _ _ Hsub).
    apply substring_lower, substring_join. left. }
  split; [done|]. cbn [record_of CompanyAffiliations].
  intros Hempty. rewrite Hempty in Hm. destruct Hm as (word & Hword & u & v & Huv).
  apply (company_keyword_nonempty _ Hword).
  symmetry in Huv. apply app_eq_nil in Huv as [_ Huv].
  by apply app_eq_nil in Huv as [? _].
Qed.

Lemma for_each_append_result_outcome acc articles :
  (Exists (λ a, PyNone ∈ aff_texts (authors_of a)) articles ∧
     for_each (append_result set_iter) acc articles = Raise AttributeError) ∨
  (Forall (λ a, PyNone ∉ aff_texts (authors_of a)) articles ∧
     ∃ results, for_each (append_result set_iter) acc articles = Ok results).
Proof.
  revert acc. induction articles as [|a articles IH]; intros acc.
  - right. split; [constructor|]. by exists acc.
  - rewrite for_each_cons.
    change (append_result set_iter acc a)
      with (parse_article set_iter a ≫= λ r, mret (acc ++ option_list r)).
    destruct (parse_article_outcome set_iter a set_iter_elements)
      as [[Hin ->]|[Hstr [record ->]]].
    + left. split; [by left|done].
    + destruct (IH (acc ++ option_list record)) as [[Hex Hr]|[Hall Hr]].
      * left. split; [by right|done].
      * right. split; [by constructor|done].
Qed.

Variable fromstring : text → result Element.

(** X11. The parse is all or nothing.  It fails with the error of
    [fromstring] when the document does not parse.  On a document that
    parses it raises exactly when the text of some affiliation of some
    article is [None], with [AttributeError] and without a record for the
    articles that are in order; it returns otherwise, with the empty list
    when the document has no article. *)
Theorem X11_parse_all_or_nothing xml_str :
  (∀ e, fromstring xml_str = Raise e →
     parse_pubmed_xml set_iter fromstring xml_str = Raise e) ∧
  (∀ root, fromstring xml_str = Ok root →
     let articles := findall_below (str "PubmedArticle") root in
     (parse_pubmed_xml set_iter fromstring xml_str = Raise AttributeError ↔
        ∃ article, article ∈ articles ∧ PyNone ∈ aff_texts (authors_of article)) ∧
     ((∃ results, parse_pubmed_xml set_iter fromstring xml_str = Ok results) ↔
        ∀ article, article ∈ articles → PyNone ∉ aff_texts (authors_of article)) ∧
     (articles = [] → parse_pubmed_xml set_iter fromstring xml_str = Ok [])).
Proof.
  split.
  - intros e He. unfold parse_pubmed_xml. by rewrite He.
  - intros root Hroot articles. rewrite (parse_pubmed_xml_root _ _ _ _ Hroot).
    unfold parse_root. fold articles.
    assert (Hnil : articles = [] →
              for_each (append_result set_iter) [] articles = Ok [])
      by (by intros ->).
    split_and!; [| |done].
    + destruct (for_each_append_result_outcome [] articles)
        as [[Hex ->]|[Hall [results ->]]].
      * apply Exists_exists in Hex as (a & Ha & Hin). split; [eauto|done].
      * rewrite Forall_forall in Hall. split; [done|].
        intros (a & Ha & Hin). by destruct (Hall a Ha).
    + destruct (for_each_append_result_outcome [] articles)
        as [[Hex ->]|[Hall [results ->]]].
      * apply Exists_exists in Hex as (a & Ha & Hin).
        split; [by intros [? ?]|]. intros Hstr. by destruct (Hstr a Ha).
      * rewrite Forall_forall in Hall. split; [done|eauto].
Qed.

End Parser_further.

Lemma X10_company_column_witness :
  mentions COMPANY_KEYWORDS (CompanyAffiliations record_example) ∧
  CompanyAffiliations record_example ≠ [].
Proof.
  apply (X10_company_column elements elements_permutation article_example
           record_example).
  vm_compute. reflexivity.
Defined.

Lemma X11_parse_all_or_nothing_witness :
  parse_pubmed_xml elements (λ _, Ok document_missing_affiliation) []
    = Raise AttributeError.
Proof.
  apply (proj1 (proj2 (X11_parse_all_or_nothing elements elements_permutation
           (λ _, Ok document_missing_affiliation) []) _ eq_refl)).
  eexists. split; [left|]. apply (bool_decide_unpack _). vm_compute. exact I.
Defined.

(** ** The run of the pipeline *)

Lemma io_bind_run {A B} (m : io A) (f : A → io B) tr :
  (m ≫= f) tr = match m tr with
                | (tr', Ok a) => f a tr'
                | (tr', Raise e) => (tr', Raise e)
                end.
Proof. reflexivity. Qed.

(** Brings both sides of an equation between traces to one shape. *)
Ltac trace_eq :=
  simpl; repeat (rewrite <- (assoc_L (++)) || rewrite <- app_comm_cons);
  simpl; reflexivity.

Lemma fetch_pubmed_ids_run esearch query debug tr :
  fetch_pubmed_ids esearch query debug tr
  = (tr ++ search_request query :: search_events (esearch query) debug,
     esearch query).
Proof.
  unfold fetch_pubmed_ids, search_events, search_request, debug_ids.
  rewrite io_bind_run. unfold emit at 1.
  destruct (esearch query) as [ids|[]]; destruct debug;
    unfold mbind, io_bind, when, emit, lift, mret, io_ret; trace_eq.
Qed.

Lemma fetch_pubmed_details_run set_iter efetch fromstring pubmed_ids debug tr :
  fetch_pubmed_details set_iter efetch fromstring pubmed_ids debug tr
  = (tr ++ fetch_request pubmed_ids ::
       match efetch pubmed_ids with
       | Ok _ => debug_xml debug
       | Raise _ => []
       end,
     fetch_and_parse set_iter efetch fromstring pubmed_ids).
Proof.
  unfold fetch_pubmed_details, fetch_and_parse, fetch_request, debug_xml.
  rewrite io_bind_run. unfold emit at 1.
  destruct (efetch pubmed_ids) as [xml|e]; destruct debug;
    unfold mbind, io_bind, result_bind, when, emit, lift, mret, io_ret; trace_eq.
Qed.

Lemma print_loop_run out papers tr :
  io_for_each (λ paper, lift (print_paper out paper) ≫= λ _,
                        emit (PrintedPaper paper)) papers tr
  = (tr ++ (print_events out papers).1, (print_events out papers).2).
Proof.
  revert tr. induction papers as [|paper papers IH]; intros tr.
  - simpl. by rewrite (right_id_L [] (++)).
  - cbn [io_for_each print_events]. rewrite !io_bind_run. unfold lift at 1.
    destruct (print_paper out paper) as [[]|e].
    + unfold emit at 1. rewrite IH. cbn [fst snd]. f_equal.
      by rewrite <- (assoc_L (++)).
    + cbn [fst snd]. by rewrite (right_id_L [] (++)).
Qed.

Lemma file_run out file papers tr :
  (lift (open_file out file) ≫= λ _,
   emit (Opened file) ≫= λ _,
   lift (write_rows out file papers) ≫= λ _,
   emit (CsvWritten file FIELDNAMES papers) ≫= λ _,
   emit (Printed (str "Results saved to " ++ file))) tr
  = (tr ++ (file_events out file papers).1, (file_events out file papers).2).
Proof.
  unfold file_events, mbind, io_bind, lift, emit.
  destruct (open_file out file) as [[]|e];
    [destruct (write_rows out file papers) as [[]|e]|]; cbn [fst snd].
  - f_equal. by repeat (rewrite <- (assoc_L (++)) || rewrite <- app_comm_cons).
  - done.
  - by rewrite (right_id_L [] (++)).
Qed.

Section Pipeline_further.

Variable set_iter : gset pyval → list pyval.
Variable esearch : text → result (list text).
Variable efetch : list text → result text.
Variable fromstring : text → result Element.
Variable out : sink.

(** The run, in one equation. *)
Lemma fetch_and_process_papers_events query output_file debug trace :
  fetch_and_process_papers set_iter esearch efetch fromstring out
    query output_file debug trace
  = (trace ++ run_events set_iter esearch efetch fromstring out
                query output_file debug, Ok ()).
Proof.
  unfold fetch_and_process_papers, try_except, run_events.
  rewrite io_bind_run, fetch_pubmed_ids_run.
  destruct (esearch query) as [[|id ids]|e].
  - unfold emit. trace_eq.
  - rewrite io_bind_run, fetch_pubmed_details_run. unfold fetch_and_parse.
    destruct (efetch (id :: ids)) as [xml|e]; cbn [mbind result_bind].
    + destruct (parse_pubmed_xml set_iter fromstring xml) as [papers|e].
      * unfold sink_events, with_error_line.
        destruct (truthy output_file).
        -- rewrite file_run.
           destruct (file_events out (default [] output_file) papers) as [evs [[]|e]];
             cbn [fst snd]; unfold emit; trace_eq.
        -- rewrite print_loop_run.
           destruct (print_events out papers) as [evs [[]|e]];
             cbn [fst snd]; unfold emit; trace_eq.
      * unfold emit. trace_eq.
    + unfold emit. trace_eq.
  - unfold emit. trace_eq.
Qed.

End Pipeline_further.













Section Pipeline_properties.

Variable set_iter : gset pyval → list pyval.
Variable esearch : text → result (list text).
Variable efetch : list text → result text.
Variable fromstring : text → result Element.
Variable out : sink.


(** X13. A failure before the sink ends the run with the error line.
    When the search fails, nothing is fetched: the run is the search
    request and the error line, with the debug line between them only
    when the failure is that of the subscripting behind it.  When the
    fetch or the parse fails, the error line is the last event, and
    before it nothing reaches the sink and no error is printed. *)
Theorem X13_failure_ends_run query output_file debug trace e :
  (esearch query = Raise e → e ≠ SubscriptError →
     fetch_and_process_papers set_iter esearch efetch fromstring out
       query output_file debug trace
     = (trace ++ [search_request query; PrintedError e], Ok ())) ∧
  (esearch query = Raise SubscriptError →
     fetch_and_process_papers set_iter esearch efetch fromstring out
       query output_file debug trace
     = (trace ++ search_request query :: debug_ids debug
              ++ [PrintedError SubscriptError], Ok ())) ∧
  (∀ id ids,
     esearch query = Ok (id :: ids) →
     fetch_and_parse set_iter efetch fromstring (id :: ids) = Raise e →
     ∃ events,
       fetch_and_process_papers set_iter esearch efetch fromstring out
         query output_file debug trace
       = (trace ++ events ++ [PrintedError e], Ok ()) ∧
       Forall (λ ev, is_sink_event ev = false ∧ is_error ev = false) events).
Proof.
  split_and!.
  - intros Hs Hne. rewrite fetch_and_process_papers_events. unfold run_events.
    rewrite Hs. by destruct e.
  - intros Hs. rewrite fetch_and_process_papers_events. unfold run_events.
    by rewrite Hs.
  - intros id ids Hs Hf. rewrite fetch_and_process_papers_events.
    unfold run_events. rewrite Hs. unfold fetch_and_parse in Hf.
    cbn [search_events].
    destruct (efetch (id :: ids)) as [xml|e'].
    + change (parse_pubmed_xml set_iter fromstring xml = Raise e) in Hf.
      rewrite Hf. exists (events_before_sink query (id :: ids) debug). split.
      * f_equal. unfold events_before_sink.
        by repeat (rewrite <- (assoc_L (++)) || rewrite <- app_comm_cons).
      * unfold events_before_sink. destruct debug; repeat constructor.
    + injection Hf as ->.
      exists (search_request query :: debug_ids debug ++ [fetch_request (id :: ids)]).
      split.
      * f_equal. by repeat (rewrite <- (assoc_L (++)) || rewrite <- app_comm_cons).
      * destruct debug; repeat constructor.
Qed.







End Pipeline_properties.

Lemma X13_failure_ends_run_witness :
  fetch_and_process_papers elements (λ _, Raise SubscriptError)
    (λ _, Ok (str "<PubmedArticleSet/>")) (λ _, Raise ParseError) sink_ok
    (str "things") (Some (str "out.csv")) true []
  = ([] ++ search_request (str "things") :: debug_ids true
        ++ [PrintedError SubscriptError], Ok ()).
Proof.
  apply (proj1 (proj2 (X13_failure_ends_run elements (λ _, Raise SubscriptError)
           (λ _, Ok (str "<PubmedArticleSet/>")) (λ _, Raise ParseError) sink_ok
           (str "things") (Some (str "out.csv")) true [] SubscriptError))).
  reflexivity.
Defined.



(** ** The classifier and the case of letters *)

Lemma lower_char_swap_case c : lower_char (swap_case c) = lower_char c.
Proof. destruct c as [[] [] [] [] [] [] [] []]; vm_compute; reflexivity. Qed.

Lemma lower_same_up_to_case s s' : same_up_to_case s s' → lower s' = lower s.
Proof.
  induction 1 as [|c c' s s' Hc _ IH]; [done|].
  unfold lower in *. simpl. rewrite IH. f_equal.
  destruct Hc as [-> | ->]; [done|apply lower_char_swap_case].
Qed.

(** X16. The classifier does not see the case of the letters A to Z:
    two texts that differ only in that some letters A to Z or a to z are
    in the other case get the same answer. *)
Theorem X16_classifier_ignores_case s s' :
  same_up_to_case s s' →
  is_company_affiliation (PyStr s') = is_company_affiliation (PyStr s).
Proof.
  intros Hcase.
  by rewrite !is_company_affiliation_str, (lower_same_up_to_case _ _ Hcase).
Qed.

Lemma X16_classifier_ignores_case_witness :
  is_company_affiliation (PyStr (str "aCME pHARMA gmbh, BASEL"))
    = is_company_affiliation (PyStr (str "Acme Pharma GmbH, Basel")).
Proof.
  apply (X16_classifier_ignores_case (str "Acme Pharma GmbH, Basel")
           (str "aCME pHARMA gmbh, BASEL")).
  unfold same_up_to_case. apply (bool_decide_unpack _). vm_compute. exact I.
Defined.
